(** * lernd: the Prolog fact parser and the custom-problem assembler

    Shallow embedding of [src/lernd/parser.py] and of [setup_custom] from
    [src/lernd/experiments.py], together with the part of the pyparsing
    combinator library that [create_parser] is written with. *)

From Stdlib Require Import Ascii String.
From stdpp Require Import base option list gmap strings pretty.

Set Warnings "-register-all".

(** ** Strings as Python [str]

    A Python [str] is modelled by [string] (8-bit characters).  Every character
    the grammar gives a meaning to (letters, digits, the punctuation and the
    white space) is ASCII; any other character makes the parse fail, in Python
    and here alike. *)

Module Str.

(** [c in cs] *)
Fixpoint mem (c : ascii) (cs : string) : bool :=
  match cs with
  | EmptyString => false
  | String d cs' => if decide (c = d) then true else mem c cs'
  end.

(** all characters of [s] are taken from [cs] *)
Fixpoint all_in (cs s : string) : bool :=
  match s with
  | EmptyString => true
  | String c s' => mem c cs && all_in cs s'
  end.

(** the longest prefix of [s] made of characters of [cs], and what follows *)
Fixpoint span (cs s : string) : string * string :=
  match s with
  | EmptyString => (EmptyString, EmptyString)
  | String c s' =>
      if mem c cs
      then let '(w, r) := span cs s' in (String c w, r)
      else (EmptyString, s)
  end.

(** [s[len(m):]] when [s.startswith(m)] *)
Fixpoint strip_prefix (m s : string) : option string :=
  match m, s with
  | EmptyString, _ => Some s
  | String a m', String b s' => if decide (a = b) then strip_prefix m' s' else None
  | String _ _, EmptyString => None
  end.

(** [s] with the characters of [cs] deleted *)
Fixpoint remove (cs s : string) : string :=
  match s with
  | EmptyString => EmptyString
  | String c s' => if mem c cs then remove cs s' else String c (remove cs s')
  end.

(** [n] copies of [c] in front of [s] *)
Fixpoint pad (n : nat) (c : ascii) (s : string) : string :=
  match n with
  | O => s
  | S n' => String c (pad n' c s)
  end.

(** [str.expandtabs(8)]: a tab becomes the spaces up to the next multiple of
    eight columns, a newline or carriage return starts a new line. *)
Fixpoint expandtabs_from (column : nat) (s : string) : string :=
  match s with
  | EmptyString => EmptyString
  | String c s' =>
      if decide (c = "009"%char) then
        let incr := 8 - column mod 8 in
        pad incr " "%char (expandtabs_from (column + incr) s')
      else if bool_decide (c = "010"%char) || bool_decide (c = "013"%char) then
        String c (expandtabs_from 0 s')
      else String c (expandtabs_from (column + 1) s')
  end.

Definition expandtabs : string → string := expandtabs_from 0.

End Str.

(** ** The pyparsing elements used by the grammar

    pyparsing is the third-party library [parser.py] imports.  What follows
    gives the elements [create_parser] uses the meaning they have in
    pyparsing 3: every element skips white space and then matches at the
    position it is given; a match returns the new position and a
    [ParseResults], a mismatch raises [ParseException]. *)

Module PyParsing.

Definition alphas : string :=
  "abcdefghijklmnopqrstuvwxyzABCDEFGHIJKLMNOPQRSTUVWXYZ".
Definition nums : string := "0123456789".

(** [ParserElement.DEFAULT_WHITE_CHARS = " \n\t\r"] *)
Definition DEFAULT_WHITE_CHARS : string :=
  String " "%char (String "010"%char (String "009"%char (String "013"%char EmptyString))).

(** A token is a matched string or a nested result; a [ParseResults] is a list
    of tokens with its named results.  The dictionary of names is kept as the
    list of assignments in the order they were made: the last one for a name
    is its value. *)
Inductive Token : Type :=
| TStr (s : string)
| TResults (toklist : list Token) (tokdict : list (string * Token)).

Definition ParseResults : Type := list Token * list (string * Token).

Definition no_tokens : ParseResults := ([], []).

(** [self += other] on [ParseResults] *)
Definition iadd (self other : ParseResults) : ParseResults :=
  (self.1 ++ other.1, self.2 ++ other.2).

(** value of the last assignment to [name] *)
Fixpoint tokdict_get (name : string) (d : list (string * Token)) : option Token :=
  match d with
  | [] => None
  | (k, v) :: d' =>
      match tokdict_get name d' with
      | Some w => Some w
      | None => if decide (k = name) then Some v else None
      end
  end.

(** [results.name]: the named value, the empty string when there is none *)
Definition getattr (t : Token) (name : string) : Token :=
  match t with
  | TResults _ d => default (TStr EmptyString) (tokdict_get name d)
  | TStr _ => TStr EmptyString
  end.

(** The elements.  [a + b] builds [And [a; b]], [a | b] builds
    [MatchFirst [a; b]]; [Word] and [And] carry the results name that
    [set_results_name] gives them. *)
Inductive ParserElement : Type :=
| Word (initChars : string) (resultsName : option string)
| Literal (matchString : string)
| Suppress (expr : ParserElement)
| And (exprs : list ParserElement) (resultsName : option string)
| MatchFirst (exprs : list ParserElement)
| ZeroOrMore (expr : ParserElement)
| OneOrMore (expr : ParserElement)
| Group (expr : ParserElement).

Definition add_ (a b : ParserElement) : ParserElement := And [a; b] None.
Definition or_ (a b : ParserElement) : ParserElement := MatchFirst [a; b].

(** [expr.set_results_name(name)] returns a copy of [expr] carrying [name];
    the grammar names a [Word] and an [And] only. *)
Definition set_results_name (e : ParserElement) (name : string) : ParserElement :=
  match e with
  | Word cs _ => Word cs (Some name)
  | And es _ => And es (Some name)
  | _ => e
  end.

(** [delimited_list(expr, delim)] is [expr + ZeroOrMore(Suppress(delim) + expr)] *)
Definition delimited_list (expr : ParserElement) (delim : string) : ParserElement :=
  add_ expr (ZeroOrMore (add_ (Suppress (Literal delim)) expr)).

(** A parse at a position of the input is a function of the text from that
    position on: it fails ([None], a [ParseException]) or returns the text
    that is left and its tokens. *)
Definition parse_fun : Type := string → option (string * ParseResults).

(** [preParse]: skip white space *)
Fixpoint preParse (instring : string) : string :=
  match instring with
  | EmptyString => EmptyString
  | String c s' => if Str.mem c DEFAULT_WHITE_CHARS then preParse s' else instring
  end.

(** [ParseResults(tokens, name, asList)] for an element with a results name *)
Definition with_name (name : option string) (asList : bool)
    (r : ParseResults) : ParseResults :=
  match name with
  | None => r
  | Some n =>
      if asList then (r.1, r.2 ++ [(n, TResults r.1 [])])
      else match r.1 with
           | t :: _ => (r.1, r.2 ++ [(n, t)])
           | [] => r
           end
  end.

Definition Word_parseImpl (initChars : string) : parse_fun := λ s,
  let '(w, rest) := Str.span initChars s in
  match w with
  | EmptyString => None
  | _ => Some (rest, ([TStr w], []))
  end.

Definition Literal_parseImpl (matchString : string) : parse_fun := λ s,
  rest ← Str.strip_prefix matchString s;
  Some (rest, ([TStr matchString], [])).

(** [And.parseImpl]: each element in turn, from where the previous one
    stopped; the results are added up. *)
Fixpoint And_parseImpl (ps : list parse_fun) : parse_fun := λ s,
  match ps with
  | [] => Some (s, no_tokens)
  | p :: ps' =>
      '(s1, r1) ← p s;
      '(s2, r2) ← And_parseImpl ps' s1;
      Some (s2, iadd r1 r2)
  end.

(** [MatchFirst.parseImpl]: the first alternative that matches *)
Fixpoint MatchFirst_parseImpl (ps : list parse_fun) : parse_fun := λ s,
  match ps with
  | [] => None
  | p :: ps' =>
      match p s with
      | Some r => Some r
      | None => MatchFirst_parseImpl ps' s
      end
  end.

(** The loop of [_MultipleMatch.parseImpl]: match [p] again until it fails.
    The recursion is on [fuel], the length of the text that is left when the
    loop starts.  An element that matches without consuming anything would
    keep Python in the loop for ever; the two elements the grammar repeats
    consume at least one character each time, so for them the text runs out
    before the fuel does ([tail_loop_fuel], [sentence_loop_fuel]). *)
Fixpoint repeat_parse (p : parse_fun) (fuel : nat) (s : string)
    (tokens : ParseResults) : string * ParseResults :=
  match fuel with
  | O => (s, tokens)
  | S fuel' =>
      match p s with
      | Some (s', tmptokens) => repeat_parse p fuel' s' (iadd tokens tmptokens)
      | None => (s, tokens)
      end
  end.

Definition OneOrMore_parseImpl (p : parse_fun) : parse_fun := λ s,
  '(s1, tokens) ← p s;
  Some (repeat_parse p (String.length s1) s1 tokens).

Definition ZeroOrMore_parseImpl (p : parse_fun) : parse_fun := λ s,
  match OneOrMore_parseImpl p s with
  | Some r => Some r
  | None => Some (s, no_tokens)
  end.

(** [ParserElement._parse]: skip white space, run the element's [parseImpl],
    post-process ([Suppress] drops the tokens, [Group] nests them) and attach
    the results name. *)
Fixpoint _parse (e : ParserElement) : parse_fun := λ instring,
  let s := preParse instring in
  match e with
  | Word cs name =>
      '(rest, r) ← Word_parseImpl cs s; Some (rest, with_name name false r)
  | Literal m => Literal_parseImpl m s
  | Suppress e' =>
      '(rest, _) ← _parse e' s; Some (rest, no_tokens)
  | And es name =>
      '(rest, r) ← And_parseImpl (map _parse es) s; Some (rest, with_name name true r)
  | MatchFirst es => MatchFirst_parseImpl (map _parse es) s
  | ZeroOrMore e' => ZeroOrMore_parseImpl (_parse e') s
  | OneOrMore e' => OneOrMore_parseImpl (_parse e') s
  | Group e' =>
      '(rest, r) ← _parse e' s; Some (rest, ([TResults r.1 r.2], []))
  end.

(** [ParseExpression.streamline] on the list of an [And] (resp. a
    [MatchFirst]) of two elements: a nested expression of the same class
    without results name is replaced by its elements, first at the front,
    then at the back. *)
Definition is_plain_And (e : ParserElement) : option (list ParserElement) :=
  match e with
  | And es None => Some es
  | _ => None
  end.

Definition is_MatchFirst (e : ParserElement) : option (list ParserElement) :=
  match e with
  | MatchFirst es => Some es
  | _ => None
  end.

Definition collapse_front (same : ParserElement → option (list ParserElement))
    (exprs : list ParserElement) : list ParserElement :=
  match exprs with
  | other :: tl =>
      match same other with
      | Some inner => inner ++ tl
      | None => exprs
      end
  | [] => exprs
  end.

Fixpoint collapse_back (same : ParserElement → option (list ParserElement))
    (exprs : list ParserElement) : list ParserElement :=
  match exprs with
  | [] => []
  | [other] =>
      match same other with
      | Some inner => inner
      | None => exprs
      end
  | e :: tl => e :: collapse_back same tl
  end.

Definition collapse (same : ParserElement → option (list ParserElement))
    (exprs : list ParserElement) : list ParserElement :=
  if decide (length exprs = 2)
  then collapse_back same (collapse_front same exprs)
  else exprs.

Fixpoint streamline (e : ParserElement) : ParserElement :=
  match e with
  | Word cs name => Word cs name
  | Literal m => Literal m
  | Suppress e' => Suppress (streamline e')
  | And es name => And (collapse is_plain_And (map streamline es)) name
  | MatchFirst es => MatchFirst (collapse is_MatchFirst (map streamline es))
  | ZeroOrMore e' => ZeroOrMore (streamline e')
  | OneOrMore e' => OneOrMore (streamline e')
  | Group e' => Group (streamline e')
  end.

(** A parser object: the expression tree and its [streamlined] flag, both
    mutated by the first parse. *)
Record parser : Type := mkParser {
  expr_of : ParserElement;
  streamlined : bool
}.

Definition new_parser (e : ParserElement) : parser := mkParser e false.

Definition streamline_parser (p : parser) : parser :=
  if streamlined p then p else mkParser (streamline (expr_of p)) true.

(** Python exceptions, by class name *)
Inductive exn : Type := PyExc (class : string).

Definition ParseException : exn := PyExc "ParseException".

(** [parser.parse_string(instring, parse_all)]: streamline the parser, expand
    tabs, parse from position 0 and, with [parse_all], demand that only white
    space is left.  Returns the parser object as the call leaves it. *)
Definition parse_string (p : parser) (instring : string) (parse_all : bool)
    : parser * (exn + ParseResults) :=
  let p' := streamline_parser p in
  let instring := Str.expandtabs instring in
  (p', match _parse (expr_of p') instring with
       | None => inl ParseException
       | Some (rest, tokens) =>
           if parse_all then
             match preParse rest with
             | EmptyString => inr tokens
             | _ => inl ParseException
             end
           else inr tokens
       end).

End PyParsing.

(** ** The interpreter state: files and the module-level parser *)

Module Py.
Import PyParsing.

(** A [pathlib.Path] by its components; [p / c] appends one, [p.name] is the
    last one. *)
Definition Path : Type := list string.
Definition joinpath (p : Path) (c : string) : Path := p ++ [c].
Definition name (p : Path) : string := List.last p EmptyString.

(** The files that exist, with their text *)
Definition filesystem : Type := gmap Path string.

Definition FileNotFoundError : exn := PyExc "FileNotFoundError".
Definition IndexError : exn := PyExc "IndexError".

(** The state of module [lernd.parser]: its global [prolog] *)
Record module_state : Type := mkState { prolog : parser }.

(** A computation over that state that may raise *)
Definition M (A : Type) : Type := module_state → module_state * (exn + A).

#[global] Instance M_ret : MRet M := λ A x st, (st, inr x).
#[global] Instance M_bind : MBind M := λ A B f m st,
  let '(st', r) := m st in
  match r with
  | inl e => (st', inl e)
  | inr x => f x st'
  end.

Definition raise {A} (e : exn) : M A := λ st, (st, inl e).

(** [results[i]] on a list *)
Definition getitem {A} (l : list A) (i : nat) : M A :=
  match l !! i with
  | Some x => mret x
  | None => raise IndexError
  end.

End Py.

(** ** src/lernd/parser.py *)

Module Parser.
Import PyParsing Py.

Definition predicate : ParserElement := set_results_name (Word alphas None) "id".

Definition number : ParserElement := Word (nums +:+ ".") None.
Definition variable : ParserElement := Word alphas None.

Definition argument : ParserElement := or_ number variable.

Definition arguments : ParserElement :=
  set_results_name
    (add_ (add_ (Suppress (Literal "(")) (delimited_list argument ","))
          (Suppress (Literal ")")))
    "args".

Definition fact : ParserElement := add_ predicate arguments.

Definition sentence : ParserElement := add_ fact (Suppress (Literal ".")).

Definition prolog_parser : ParserElement := OneOrMore (Group sentence).

Definition create_parser (_ : unit) : parser := new_parser prolog_parser.

(** [prolog = create_parser()], run when the module is imported *)
Definition module_init : module_state := mkState (create_parser ()).

(** What the functions below read of a parsed sentence: [predicate.id], a
    [str], and [predicate.args], a sequence of [str].  A [str] read as a
    sequence is the sequence of its characters. *)
Record Predicate : Type := mkPredicate { id : string; args : list string }.

Definition str_of (t : Token) : string :=
  match t with
  | TStr s => s
  | TResults _ _ => EmptyString
  end.

Fixpoint chars_of (s : string) : list string :=
  match s with
  | EmptyString => []
  | String c s' => String c EmptyString :: chars_of s'
  end.

Definition strs_of (t : Token) : list string :=
  match t with
  | TStr s => chars_of s
  | TResults toklist _ => map str_of toklist
  end.

Definition Predicate_of (t : Token) : Predicate :=
  {| id := str_of (getattr t "id"); args := strs_of (getattr t "args") |}.

(** The rows of a result, as [for predicate in results] and [results[i]]
    give them.  On the rows of this grammar nothing is lost: a row is
    [group_of] of its predicate ([Predicate_of_group_of]). *)
Definition predicates (results : ParseResults) : list Predicate :=
  map Predicate_of results.1.

(** [prolog.parse_file(filename, parse_all=True)]: reads the file, parses its
    text with the module's parser, and returns the rows *)
Definition parse_file (fs : filesystem) (filename : Path) : M (list Predicate) := λ st,
  match fs !! filename with
  | None => (st, inl FileNotFoundError)
  | Some file_contents =>
      let '(p, result) := parse_string (prolog st) file_contents true in
      (mkState p,
       match result with
       | inl e => inl e
       | inr result => inr (predicates result)
       end)
  end.

Definition to_pred_str (predicate : Predicate) : string :=
  id predicate +:+ "/" +:+ pretty (length (args predicate)).

Definition to_pred (predicate : Predicate) : string :=
  id predicate +:+ "(" +:+ String.concat "," (args predicate) +:+ ")".

Definition get_pred_str_list (results : list Predicate) : list string :=
  map to_pred_str results.

(** [res.extend(predicate.args)] for each predicate, then [list(set(res))]:
    a list without duplicates, in the order the set iterates in. *)
Definition get_all_unique_args (results : list Predicate) : list string :=
  let res := foldl (λ res predicate, res ++ args predicate) [] results in
  elements (list_to_set res : gset string).

End Parser.

(** ** The solver's data types

    [lernd.classes], [lernd.lernd_types] and [lernd.util] are imported by
    [experiments.py]; [setup_custom] only builds their values. *)

Module Lernd.

(** Modelled from the spec: the predicate type of [lernd.lernd_types] and
    [lernd.util.str2pred].  "Signature: derived value name/arity, used as a
    key"; equality is value equality of that key. *)
Definition Signature : Type := string.
Definition str2pred (s : string) : Signature := s.

(** Modelled from the spec: [lernd.classes.GroundAtom] and
    [lernd.util.str2ground_atom].  "GroundAtom: represented canonically as
    name(arg1,arg2,...)". *)
Definition GroundAtom : Type := string.
Definition str2ground_atom (s : string) : GroundAtom := s.

(** Modelled from the spec: [lernd.lernd_types.Constant].  "Constant: an
    opaque string-valued term; equality is string equality". *)
Definition Constant (s : string) : string := s.

(** Modelled from the spec: [lernd.lernd_types.RuleTemplate], the
    "slot(n, existential)" of a rule. *)
Record RuleTemplate : Type := mkRuleTemplate { v : nat; existential : bool }.

(** Modelled from the spec: [lernd.classes.LanguageModel], "{ target,
    extensional, constants }", holding the constructor's arguments. *)
Record LanguageModel : Type := mkLanguageModel {
  target : Signature;
  extensional : list Signature;
  constants : list string
}.

(** Modelled from the spec: [lernd.classes.ProgramTemplate],
    "{ auxiliary_predicates, rule_slots: mapping Signature → (slot0, slot1 or
    absent), forward_chaining_steps }". *)
Record ProgramTemplate : Type := mkProgramTemplate {
  auxiliary_predicates : list Signature;
  rule_slots : gmap Signature (RuleTemplate * option RuleTemplate);
  forward_chaining_steps : nat
}.

(** Modelled from the spec: [lernd.classes.ILP], "{ name, language_model,
    background, positive, negative }", holding the constructor's arguments. *)
Record ILP : Type := mkILP {
  name : string;
  language_model : LanguageModel;
  background : list GroundAtom;
  positive : list GroundAtom;
  negative : list GroundAtom
}.

End Lernd.

(** ** src/lernd/experiments.py: setup_custom *)

Module Experiments.
Import PyParsing Py Parser Lernd.

Definition setup_custom (fs : filesystem) (example_path : Path)
    : M (ILP * ProgramTemplate) :=
  let problem_name := Py.name example_path in
  let bk_file := joinpath example_path "bk.pl" in
  let positive_exs_file := joinpath example_path "pos.pl" in
  let negative_exs_file := joinpath example_path "neg.pl" in

  bk ← parse_file fs bk_file;
  positive_exs ← parse_file fs positive_exs_file;
  negative_exs ← parse_file fs negative_exs_file;

  (* Language Model *)
  first ← getitem positive_exs 0;
  let target_pred := str2pred (to_pred_str first) in
  let preds_ext := map str2pred (get_pred_str_list bk) in
  let constants :=
    map Constant
      (elements (list_to_set (get_all_unique_args bk
                              ++ get_all_unique_args positive_exs
                              ++ get_all_unique_args negative_exs) : gset string)) in
  let language_model := mkLanguageModel target_pred preds_ext constants in

  (* Program template *)
  let aux_pred := str2pred "pred/2" in
  let aux_preds := [aux_pred] in
  let rules : gmap Signature (RuleTemplate * option RuleTemplate) :=
    <[aux_pred := (mkRuleTemplate 1 false, None)]>
      (<[target_pred := (mkRuleTemplate 0 false, Some (mkRuleTemplate 1 true))]> ∅) in
  let forward_chaining_steps := 6 in
  let program_template := mkProgramTemplate aux_preds rules forward_chaining_steps in

  (* ILP problem *)
  let background_axioms := map (λ predicate, str2ground_atom (to_pred predicate)) bk in
  let positive_examples := map (λ predicate, str2ground_atom (to_pred predicate)) positive_exs in
  let negative_examples := map (λ predicate, str2ground_atom (to_pred predicate)) negative_exs in

  let ilp_problem :=
    mkILP problem_name language_model background_axioms positive_examples negative_examples in
  mret (ilp_problem, program_template).

End Experiments.

(** ** Vocabulary of the statements *)

Module Shape.
Import PyParsing Py Parser.

(** the text with its white space deleted *)
Definition squeeze (s : string) : string := Str.remove DEFAULT_WHITE_CHARS s.

(** a non-empty string over an alphabet: what [Word] matches *)
Definition word_over (cs w : string) : bool :=
  match w with
  | EmptyString => false
  | _ => Str.all_in cs w
  end.

(** what the grammar accepts as an argument *)
Definition argument_token (w : string) : bool :=
  word_over (nums +:+ ".") w || word_over alphas w.

(** what the grammar accepts as a sentence *)
Definition well_formed (p : Predicate) : bool :=
  word_over alphas (id p)
  && match args p with [] => false | _ => true end
  && forallb argument_token (args p).

(** the row pyparsing returns for a sentence: the tokens, and the named
    results [id] and [args] *)
Definition group_of (p : Predicate) : Token :=
  TResults (TStr (id p) :: map TStr (args p))
           [("id", TStr (id p)); ("args", TResults (map TStr (args p)) [])].

(** a sentence as written without white space *)
Definition sentence_text (p : Predicate) : string := to_pred p +:+ ".".

Fixpoint document_text (ps : list Predicate) : string :=
  match ps with
  | [] => EmptyString
  | p :: ps' => sentence_text p +:+ document_text ps'
  end.

(** Reading a signature back.  The value of a string of decimal digits: *)
Definition digit_of (c : ascii) : option N :=
  let code := N_of_ascii c in
  if (48 <=? code)%N && (code <=? 57)%N then Some (code - 48)%N else None.

Fixpoint digits_value (acc : N) (s : string) : option N :=
  match s with
  | EmptyString => Some acc
  | String c s' => d ← digit_of c; digits_value (10 * acc + d) s'
  end.

Definition int_of_str (s : string) : option nat :=
  match s with
  | EmptyString => None
  | _ => N.to_nat <$> digits_value 0 s
  end.

(** the text before the first slash and the text after it: *)
Fixpoint split_slash (s : string) : option (string * string) :=
  match s with
  | EmptyString => None
  | String c s' =>
      if decide (c = "/"%char) then Some (EmptyString, s')
      else '(a, b) ← split_slash s'; Some (String c a, b)
  end.

(** the name and the arity written in a signature: *)
Definition read_signature (s : string) : option (string * nat) :=
  '(a, b) ← split_slash s; n ← int_of_str b; Some (a, n).

(** the text of the arguments after the first one, up to [t] *)
Definition tail_text (ws : list string) (t : string) : string :=
  foldr (λ w t, ("," +:+ w) +:+ t) t ws.

(** the characters a sentence without white space is written with *)
Definition sentence_chars : string := alphas +:+ nums +:+ ".,()".

(** The sentence grammar as the first parse leaves it: nested sums without
    results name are flattened. *)
Definition tail : ParserElement := And [Suppress (Literal ","); argument] None.

Definition arguments_flat : ParserElement :=
  And [Suppress (Literal "("); argument; ZeroOrMore tail; Suppress (Literal ")")]
      (Some "args").

Definition sentence_flat : ParserElement :=
  And [predicate; arguments_flat; Suppress (Literal ".")] None.

End Shape.

(** ** Runs of the module *)

Module Run.
Import PyParsing Py Parser Lernd Experiments.

(** The states the module can be in: as the import leaves it, and as any
    call of [parse_file] or [setup_custom] leaves it. *)
Inductive reachable : module_state → Prop :=
| reachable_init : reachable module_init
| reachable_parse_file st fs filename :
    reachable st → reachable (parse_file fs filename st).1
| reachable_setup_custom st fs example_path :
    reachable st → reachable (setup_custom fs example_path st).1.

(** [create_parser().parse_file(filename, parse_all=True)]: the parse of a
    file with a parser of its own, built for this call. *)
Definition parse_file_fresh (fs : filesystem) (filename : Path)
    : exn + list Predicate :=
  (parse_file fs filename (mkState (create_parser ()))).2.

(** The parser object once a parse has streamlined it *)
Definition streamlined_prolog : parser := mkParser (streamline prolog_parser) true.

(** The two values [prolog] takes: as [create_parser] returns it, and
    streamlined *)
Definition prolog_inv (st : module_state) : Prop :=
  prolog st = create_parser () ∨ prolog st = streamlined_prolog.

End Run.

(** ** The specification's own notions, as it words them *)

Module Spec.
Import PyParsing Py Parser.

(** "deduplicated, in first-seen order" *)
Fixpoint dedup_first_seen (seen l : list string) : list string :=
  match l with
  | [] => []
  | x :: l' =>
      if decide (x ∈ seen) then dedup_first_seen seen l'
      else x :: dedup_first_seen (x :: seen) l'
  end.

(** number of characters of [s] that are of [cs] *)
Fixpoint count_of (cs s : string) : nat :=
  match s with
  | EmptyString => 0
  | String c s' => (if Str.mem c cs then 1 else 0) + count_of cs s'
  end.

(** "numeric literal": digits with an optional single decimal point, at least
    one digit *)
Definition numeric_literal (w : string) : bool :=
  Str.all_in (nums +:+ ".") w
  && bool_decide (1 ≤ count_of nums w)
  && bool_decide (count_of "." w ≤ 1).

(** "variable/symbol pattern (alphabetic)" *)
Definition alphabetic (w : string) : bool :=
  match w with
  | EmptyString => false
  | _ => Str.all_in alphas w
  end.

(** the error kind the specification names for an empty example file *)
Definition EmptyExamplesError : exn := PyExc "EmptyExamplesError".

End Spec.

(** ** Example problems *)

Module Examples.
Import PyParsing Py Parser.

Definition nl : string := String "010"%char EmptyString.

(** a problem directory with its three files *)
Definition problem_fs (dir : Path) (bk pos neg : string) : filesystem :=
  {[ joinpath dir "bk.pl" := bk;
     joinpath dir "pos.pl" := pos;
     joinpath dir "neg.pl" := neg ]}.

Definition even_dir : Path := ["examples"; "even"].

Definition even_fs : filesystem :=
  problem_fs even_dir
    ("zero(0)." +:+ nl +:+ "succ(0,1).")
    ("even(0)." +:+ nl +:+ "even(2).")
    "even(1).".

(** two background facts of the same predicate *)
Definition succ_fs : filesystem :=
  problem_fs even_dir ("succ(0,1)." +:+ nl +:+ "succ(1,2).") "even(0)." "even(1).".

(** arguments made of dots *)
Definition dots_fs : filesystem :=
  problem_fs even_dir "zero(0)." ("p(..)." +:+ nl +:+ "q(1.2.3).") "even(1).".

(** no positive example *)
Definition empty_pos_fs : filesystem :=
  problem_fs even_dir "zero(0)." "" "even(1).".

(** the target is the auxiliary predicate's signature *)
Definition pred_fs : filesystem :=
  problem_fs even_dir "zero(0)." "pred(a,b)." "pred(b,a).".

(** white space between the tokens, a tab included *)
Definition spaced_text : string :=
  " track ( 1 , 2.0," +:+ String "009"%char " abc ) ." +:+ nl.
Definition spaced_fs : filesystem := {[ ["track.pl"] := spaced_text ]}.

Definition rows : list Predicate :=
  [mkPredicate "succ" ["0"; "1"]; mkPredicate "zero" ["0"]].
Definition rows_swapped : list Predicate :=
  [mkPredicate "zero" ["0"]; mkPredicate "succ" ["0"; "1"]].

End Examples.

(** ** src/lernd/experiments.py: the built-in problems *)

Module Builtin.
Import PyParsing Py Parser Lernd.

(** [range(start, stop, step)] for a positive [step]: the items
    [start + i * step] for [i] below the length
    [(stop - start + step - 1) // step] *)
Definition range3 (start stop step : nat) : list nat :=
  map (λ i, start + i * step) (seq 0 ((stop - start + step - 1) `div` step)).

(** [range(stop)] *)
Definition range (stop : nat) : list nat := range3 0 stop 1.

Definition quote : string := String "034"%char EmptyString.

(** [setup_even()]: what it prints, and what it returns *)
Definition setup_even : list string * (ILP * ProgramTemplate) :=
  let stdout := ["Setting up " +:+ quote +:+ "Even" +:+ quote +:+ " problem..."] in
  (* Language model *)
  let target_pred := str2pred "even/1" in
  let zero_pred := str2pred "zero/1" in
  let succ_pred := str2pred "succ/2" in
  let preds_ext := [zero_pred; succ_pred] in
  let constants := map (λ i, Constant (pretty i)) (range 11) in
  let language_model := mkLanguageModel target_pred preds_ext constants in

  (* Program template *)
  let aux_pred := str2pred "pred/2" in
  let aux_preds := [aux_pred] in
  let rules : gmap Signature (RuleTemplate * option RuleTemplate) :=
    <[aux_pred := (mkRuleTemplate 1 false, None)]>
      (<[target_pred := (mkRuleTemplate 0 false, Some (mkRuleTemplate 1 true))]> ∅) in
  let forward_chaining_steps := 6 in
  let program_template := mkProgramTemplate aux_preds rules forward_chaining_steps in

  (* ILP problem *)
  let ground_zero := str2ground_atom "zero(0)" in
  let background :=
    [ground_zero]
    ++ map (λ i, str2ground_atom ("succ(" +:+ pretty i +:+ "," +:+ pretty (i + 1) +:+ ")"))
           (range 10) in
  let positive := map (λ i, str2ground_atom ("even(" +:+ pretty i +:+ ")")) (range3 0 11 2) in
  let negative := map (λ i, str2ground_atom ("even(" +:+ pretty i +:+ ")")) (range3 1 10 2) in
  let ilp_problem := mkILP "even" language_model background positive negative in
  (stdout, (ilp_problem, program_template)).

(** [setup_predecessor()].  [lernd.classes.GroundAtoms] is not part of these
    sources: the atoms that
    [GroundAtoms(language_model, program_template).ground_atom_generator(
       MaybeGroundAtom.from_pred(target_pred))]
    yields, each paired with a second component the loop ignores, are the
    parameter [ground_atom_generator]. *)
Definition setup_predecessor {T : Type}
    (ground_atom_generator :
       LanguageModel → ProgramTemplate → Signature → list (GroundAtom * T))
    : list string * (ILP * ProgramTemplate) :=
  let stdout :=
    ["Setting up " +:+ quote +:+ "Predecessor" +:+ quote +:+ " problem..."] in

  (* Language model *)
  let target_pred := str2pred "predecessor/2" in
  let zero_pred := str2pred "zero/1" in
  let succ_pred := str2pred "succ/2" in
  let preds_ext := [zero_pred; succ_pred] in
  let constants := map (λ i, Constant (pretty i)) (range 10) in
  let language_model := mkLanguageModel target_pred preds_ext constants in

  (* Program template *)
  let preds_aux : list Signature := [] in
  let rules : gmap Signature (RuleTemplate * option RuleTemplate) :=
    <[target_pred := (mkRuleTemplate 0 false, None)]> ∅ in
  let forward_chaining_steps := 1 in
  let program_template := mkProgramTemplate preds_aux rules forward_chaining_steps in

  (* ILP problem *)
  let ground_zero := str2ground_atom "zero(0)" in
  let background_axioms :=
    [ground_zero]
    ++ map (λ i, str2ground_atom ("succ(" +:+ pretty i +:+ "," +:+ pretty (i + 1) +:+ ")"))
           (range 9) in
  let positive_examples :=
    map (λ i, str2ground_atom
                ("predecessor(" +:+ pretty (i + 1) +:+ "," +:+ pretty i +:+ ")"))
        (range 9) in

  let negative_examples :=
    foldl (λ negative_examples '(ground_atom, _),
             if decide (ground_atom ∈ positive_examples) then negative_examples
             else negative_examples ++ [ground_atom])
          [] (ground_atom_generator language_model program_template target_pred) in

  let ilp_problem :=
    mkILP "predecessor" language_model background_axioms positive_examples
      negative_examples in
  (stdout, (ilp_problem, program_template)).

End Builtin.

(** ** Files written from predicates *)

Module Written.
Import PyParsing Py Parser.

(** white space other than the tab *)
Definition blank (sep : string) : bool :=
  Str.all_in (String " "%char (String "010"%char (String "013"%char EmptyString))) sep.

(** the sentences of [ps], each followed by [sep] *)
Fixpoint written (sep : string) (ps : list Predicate) : string :=
  match ps with
  | [] => EmptyString
  | p :: ps' => (to_pred p +:+ ".") +:+ sep +:+ written sep ps'
  end.

(** the atoms of [atoms], one on each line, each with its period *)
Fixpoint lines (atoms : list string) : string :=
  match atoms with
  | [] => EmptyString
  | a :: atoms' => a +:+ "." +:+ String "010"%char (lines atoms')
  end.

End Written.

(** * Facts *)

(** ** Strings *)

Module StrFacts.
Import Str.

Lemma app_cons (c : ascii) (a b : string) : String c a +:+ b = String c (a +:+ b).
Proof. done. Qed.

Lemma app_nil_l (s : string) : "" +:+ s = s.
Proof. done. Qed.

Lemma app_nil_r (s : string) : s +:+ "" = s.
Proof. induction s as [|c s IH]; [done|]. by rewrite app_cons, IH. Qed.

Lemma app_assoc (a b c : string) : (a +:+ b) +:+ c = a +:+ b +:+ c.
Proof. induction a as [|x a IH]; [done|]. by rewrite !app_cons, IH. Qed.

Lemma length_app (a b : string) :
  String.length (a +:+ b) = String.length a + String.length b.
Proof. induction a as [|x a IH]; [done|]. rewrite app_cons. cbn. by rewrite IH. Qed.

Lemma app_eq_nil (a b : string) : a +:+ b = "" → a = "" ∧ b = "".
Proof. destruct a; [done|]. by rewrite app_cons. Qed.

Lemma remove_app cs (a b : string) : remove cs (a +:+ b) = remove cs a +:+ remove cs b.
Proof.
  induction a as [|x a IH]; [done|].
  rewrite app_cons. cbn. destruct (mem x cs); [done|]. by rewrite IH.
Qed.

Lemma remove_pad cs n c s : mem c cs = true → remove cs (pad n c s) = remove cs s.
Proof. intros Hc. induction n as [|n IH]; [done|]. cbn. by rewrite Hc. Qed.

Lemma all_in_app cs (a b : string) : all_in cs (a +:+ b) = all_in cs a && all_in cs b.
Proof.
  induction a as [|x a IH]; [done|].
  rewrite app_cons. cbn. rewrite IH. by rewrite andb_assoc.
Qed.

(** characters of [cs] that are none of [ds] survive the deletion of [ds] *)
Lemma remove_all_in cs ds w :
  (∀ c, mem c cs = true → mem c ds = false) →
  all_in cs w = true → remove ds w = w.
Proof.
  intros Hdis. induction w as [|c w IH]; [done|]. cbn.
  intros [Hc Hw]%andb_prop. rewrite (Hdis _ Hc). by rewrite IH.
Qed.

Lemma span_app cs s w r : span cs s = (w, r) → s = w +:+ r.
Proof.
  revert w r. induction s as [|c s IH]; intros w r; cbn.
  - by intros [= <- <-].
  - destruct (mem c cs).
    + destruct (span cs s) as [w' r'] eqn:E. intros [= <- <-].
      rewrite app_cons. by rewrite <-(IH w' r').
    + by intros [= <- <-].
Qed.

Lemma span_all_in cs s w r : span cs s = (w, r) → all_in cs w = true.
Proof.
  revert w r. induction s as [|c s IH]; intros w r; cbn.
  - by intros [= <- <-].
  - destruct (mem c cs) eqn:Hc.
    + destruct (span cs s) as [w' r'] eqn:E. intros [= <- <-].
      cbn. rewrite Hc. by apply (IH w' r').
    + by intros [= <- <-].
Qed.

(** the span is the longest one: what follows starts outside [cs] *)
Lemma span_maximal cs s w r c r' :
  span cs s = (w, r) → r = String c r' → mem c cs = false.
Proof.
  revert w r. induction s as [|x s IH]; intros w r; cbn.
  - by intros [= <- <-].
  - destruct (mem x cs) eqn:Hx.
    + destruct (span cs s) as [w1 r1] eqn:E. intros [= <- <-] ->.
      by apply (IH w1 (String c r')).
    + intros [= <- <-] [= -> ->]. done.
Qed.

(** a word followed by a character that is not of the word's alphabet is
    spanned exactly *)
Lemma span_word cs w c r :
  all_in cs w = true → mem c cs = false → span cs (w +:+ String c r) = (w, String c r).
Proof.
  intros Hw Hc. induction w as [|x w IH].
  - rewrite app_nil_l. cbn. by rewrite Hc.
  - cbn in Hw. apply andb_prop in Hw as [Hx Hw]. rewrite app_cons. cbn.
    rewrite Hx. by rewrite (IH Hw).
Qed.

Lemma strip_prefix_app m s r : strip_prefix m s = Some r → s = m +:+ r.
Proof.
  revert s. induction m as [|a m IH]; intros s; cbn.
  - by intros [= ->].
  - destruct s as [|b s]; [done|]. destruct (decide (a = b)) as [->|]; [|done].
    intros H. rewrite app_cons. by rewrite <-(IH s).
Qed.

Lemma strip_prefix_here m r : strip_prefix m (m +:+ r) = Some r.
Proof.
  induction m as [|a m IH]; [done|].
  rewrite app_cons. cbn. by rewrite decide_True.
Qed.

Lemma expandtabs_from_remove cs column s :
  mem "009" cs = true → mem " " cs = true →
  remove cs (expandtabs_from column s) = remove cs s.
Proof.
  intros Htab Hsp. revert column. induction s as [|c s IH]; intros column; [done|].
  cbn. destruct (decide (c = "009"%char)) as [->|Hc].
  - rewrite remove_pad by done. rewrite Htab. apply IH.
  - destruct (bool_decide (c = "010"%char) || bool_decide (c = "013"%char));
      cbn; destruct (mem c cs); by rewrite ?IH.
Qed.

End StrFacts.

(** ** The elements of the grammar *)

Module ParseFacts.
Import Str StrFacts PyParsing Py Parser Shape.

Lemma alphas_not_white c : mem c alphas = true → mem c DEFAULT_WHITE_CHARS = false.
Proof. destruct c as [[] [] [] [] [] [] [] []]; vm_compute; done. Qed.

Lemma number_not_white c :
  mem c (nums +:+ ".") = true → mem c DEFAULT_WHITE_CHARS = false.
Proof. destruct c as [[] [] [] [] [] [] [] []]; vm_compute; done. Qed.

Lemma squeeze_app a b : squeeze (a +:+ b) = squeeze a +:+ squeeze b.
Proof. apply remove_app. Qed.

Lemma squeeze_preParse s : squeeze (preParse s) = squeeze s.
Proof.
  induction s as [|c s IH]; [done|]. cbn [preParse].
  destruct (mem c DEFAULT_WHITE_CHARS) eqn:E; [|done].
  unfold squeeze in *. cbn [remove]. by rewrite E.
Qed.

Lemma length_preParse s : String.length (preParse s) ≤ String.length s.
Proof.
  induction s as [|c s IH]; [done|]. cbn [preParse].
  destruct (mem c DEFAULT_WHITE_CHARS); cbn [String.length]; lia.
Qed.

Lemma preParse_squeeze_nil s : preParse s = "" → squeeze s = "".
Proof. intros H. rewrite <-squeeze_preParse. by rewrite H. Qed.

Lemma squeeze_nil_preParse s : squeeze s = "" → preParse s = "".
Proof.
  induction s as [|c s IH]; [done|]. unfold squeeze in *. cbn [remove preParse].
  by destruct (mem c DEFAULT_WHITE_CHARS).
Qed.

Lemma preParse_idemp s : preParse (preParse s) = preParse s.
Proof.
  induction s as [|c s IH]; [done|]. cbn [preParse].
  destruct (mem c DEFAULT_WHITE_CHARS) eqn:E; [done|]. cbn [preParse]. by rewrite E.
Qed.

Lemma word_over_spec cs w : word_over cs w = true ↔ w ≠ "" ∧ all_in cs w = true.
Proof. destruct w; cbn; intuition congruence. Qed.

Lemma squeeze_word cs w :
  (∀ c, mem c cs = true → mem c DEFAULT_WHITE_CHARS = false) →
  word_over cs w = true → squeeze w = w.
Proof. intros Hcs [_ Hw]%word_over_spec. by apply (remove_all_in cs). Qed.

Lemma squeeze_argument w : argument_token w = true → squeeze w = w.
Proof.
  intros [H|H]%orb_prop.
  - by apply (squeeze_word _ _ number_not_white).
  - by apply (squeeze_word _ _ alphas_not_white).
Qed.

(** *** [Word] *)
Lemma Word_parseImpl_inv cs s rest r :
  Word_parseImpl cs s = Some (rest, r) →
  ∃ w, r = ([TStr w], []) ∧ word_over cs w = true ∧ s = w +:+ rest.
Proof.
  unfold Word_parseImpl. destruct (span cs s) as [w r'] eqn:E.
  destruct w as [|c w]; [done|]. intros [= <- <-].
  exists (String c w). split_and!; [done| |by apply (span_app cs)].
  apply (span_all_in cs s _ r'). done.
Qed.

Lemma parse_Word_inv cs name s rest r :
  (∀ c, mem c cs = true → mem c DEFAULT_WHITE_CHARS = false) →
  _parse (Word cs name) s = Some (rest, r) →
  ∃ w, r = with_name name false ([TStr w], []) ∧ word_over cs w = true
       ∧ squeeze s = w +:+ squeeze rest
       ∧ String.length rest < String.length s.
Proof.
  intros Hcs. cbn. intros ([rest' r'] & H & [= <- <-])%bind_Some.
  apply Word_parseImpl_inv in H as (w & -> & Hw & Hs).
  exists w. split_and!; [done..| |].
  - rewrite <-squeeze_preParse, Hs, squeeze_app.
    by rewrite (squeeze_word cs).
  - pose proof (length_preParse s) as Hl. rewrite Hs, length_app in Hl.
    destruct w; [done|]. cbn in Hl. lia.
Qed.

(** *** [Suppress(Literal)] *)
Lemma parse_Suppress_Literal_inv m s rest r :
  squeeze m = m →
  _parse (Suppress (Literal m)) s = Some (rest, r) →
  r = no_tokens ∧ squeeze s = m +:+ squeeze rest
  ∧ String.length rest + String.length m ≤ String.length s.
Proof.
  intros Hm. cbn. intros ([rest' r'] & H & [= <- <-])%bind_Some.
  unfold Literal_parseImpl in H.
  apply bind_Some in H as (rest'' & H & [= <- <-]).
  apply strip_prefix_app in H. rewrite preParse_idemp in H. split_and!; [done| |].
  - by rewrite <-squeeze_preParse, H, squeeze_app, Hm.
  - pose proof (length_preParse s) as Hl. rewrite H, length_app in Hl. lia.
Qed.

(** *** [And], [MatchFirst] *)
Lemma And_parseImpl_cons_inv p ps s rest r :
  And_parseImpl (p :: ps) s = Some (rest, r) →
  ∃ s1 r1 r2, p s = Some (s1, r1) ∧ And_parseImpl ps s1 = Some (rest, r2)
              ∧ r = iadd r1 r2.
Proof.
  cbn. intros ([s1 r1] & H1 & ([s2 r2] & H2 & [= <- <-])%bind_Some)%bind_Some.
  by exists s1, r1, r2.
Qed.

Lemma And_parseImpl_nil_inv s rest r :
  And_parseImpl [] s = Some (rest, r) → rest = s ∧ r = no_tokens.
Proof. by intros [= <- <-]. Qed.

Lemma parse_And_inv es name s rest r :
  _parse (And es name) s = Some (rest, r) →
  ∃ r0, And_parseImpl (map _parse es) (preParse s) = Some (rest, r0)
        ∧ r = with_name name true r0.
Proof. cbn. intros ([rest' r'] & H & [= <- <-])%bind_Some. by exists r'. Qed.

(** *** [argument = number | variable] *)
Lemma parse_argument_inv s rest r :
  _parse argument s = Some (rest, r) →
  ∃ w, r = ([TStr w], []) ∧ argument_token w = true
       ∧ squeeze s = w +:+ squeeze rest
       ∧ String.length rest < String.length s.
Proof.
  unfold argument, or_. cbn [_parse map MatchFirst_parseImpl].
  fold number variable.
  destruct (_parse number (preParse s)) as [[rest1 r1]|] eqn:E1.
  - intros [= <- <-].
    apply (parse_Word_inv _ _ _ _ _ number_not_white) in E1 as (w & -> & Hw & Hs & Hl).
    exists w. rewrite squeeze_preParse in Hs. pose proof (length_preParse s).
    unfold argument_token. rewrite Hw. split_and!; [done..|lia].
  - destruct (_parse variable (preParse s)) as [[rest2 r2]|] eqn:E2; [|done].
    intros [= <- <-].
    apply (parse_Word_inv _ _ _ _ _ alphas_not_white) in E2 as (w & -> & Hw & Hs & Hl).
    exists w. rewrite squeeze_preParse in Hs. pose proof (length_preParse s).
    unfold argument_token. rewrite Hw, orb_true_r. split_and!; [done..|lia].
Qed.

(** *** the loop of [ZeroOrMore] and [OneOrMore] *)
Section repeat.
Context {X : Type} (p : parse_fun) (tok : X → ParseResults)
        (text : X → string) (good : X → Prop).
Hypothesis p_inv : ∀ s rest r,
  p s = Some (rest, r) →
  ∃ x, r = tok x ∧ good x ∧ squeeze s = text x +:+ squeeze rest
       ∧ String.length rest < String.length s.

Lemma repeat_parse_inv fuel s tokens rest r :
  repeat_parse p fuel s tokens = (rest, r) →
  ∃ xs, r = foldl (λ acc x, iadd acc (tok x)) tokens xs
        ∧ Forall good xs
        ∧ squeeze s = foldr (λ x t, text x +:+ t) (squeeze rest) xs
        ∧ String.length rest ≤ String.length s.
Proof.
  revert s tokens. induction fuel as [|fuel IH]; intros s tokens; cbn.
  - intros [= <- <-]. by exists [].
  - destruct (p s) as [[s' tmp]|] eqn:E.
    + intros H. apply p_inv in E as (x & -> & Hx & Hs & Hl).
      apply IH in H as (xs & -> & Hxs & Hs' & Hl').
      exists (x :: xs). cbn. rewrite Hs, Hs'. split_and!; [done|by constructor|done|lia].
    + intros [= <- <-]. by exists [].
Qed.

(** The bound on the iterations is never what stops the loop: with at
    least as much fuel as there is text, the amount of fuel is
    irrelevant. *)
Lemma repeat_parse_fuel fuel1 fuel2 s tokens :
  String.length s ≤ fuel1 → String.length s ≤ fuel2 →
  repeat_parse p fuel1 s tokens = repeat_parse p fuel2 s tokens.
Proof.
  revert fuel2 s tokens.
  induction fuel1 as [|fuel1 IH]; intros fuel2 s tokens H1 H2.
  - destruct fuel2 as [|fuel2]; [done|]. cbn.
    destruct (p s) as [[s' tmp]|] eqn:E; [|done].
    apply p_inv in E as (x & _ & _ & _ & Hl). lia.
  - destruct fuel2 as [|fuel2]; cbn.
    + destruct (p s) as [[s' tmp]|] eqn:E; [|done].
      apply p_inv in E as (x & _ & _ & _ & Hl). lia.
    + destruct (p s) as [[s' tmp]|] eqn:E; [|done].
      pose proof E as (x & _ & _ & _ & Hl)%p_inv. apply IH; lia.
Qed.

Lemma OneOrMore_parseImpl_inv s rest r :
  OneOrMore_parseImpl p s = Some (rest, r) →
  ∃ x xs, r = foldl (λ acc x, iadd acc (tok x)) (tok x) xs
          ∧ Forall good (x :: xs)
          ∧ squeeze s = foldr (λ x t, text x +:+ t) (squeeze rest) (x :: xs)
          ∧ String.length rest < String.length s.
Proof.
  unfold OneOrMore_parseImpl. intros ([s1 r1] & H1 & [= H])%bind_Some.
  apply p_inv in H1 as (x & -> & Hx & Hs & Hl).
  apply repeat_parse_inv in H as (xs & -> & Hxs & Hs' & Hl').
  exists x, xs. cbn. rewrite Hs, Hs'. split_and!; [done|by constructor|done|lia].
Qed.

Lemma ZeroOrMore_parseImpl_inv s rest r :
  ZeroOrMore_parseImpl p s = Some (rest, r) →
  ∃ xs, r = foldl (λ acc x, iadd acc (tok x)) no_tokens xs
        ∧ Forall good xs
        ∧ squeeze s = foldr (λ x t, text x +:+ t) (squeeze rest) xs
        ∧ String.length rest ≤ String.length s.
Proof.
  unfold ZeroOrMore_parseImpl.
  destruct (OneOrMore_parseImpl p s) as [[rest' r']|] eqn:E.
  - intros [= <- <-].
    apply OneOrMore_parseImpl_inv in E as (x & xs & -> & Hxs & Hs & Hl).
    exists (x :: xs). cbn. split_and!; [|done..|lia].
    by destruct (tok x).
  - intros [= <- <-]. by exists [].
Qed.
End repeat.

(** *** [, argument] and the list of arguments *)
Lemma parse_tail_inv s rest r :
  _parse tail s = Some (rest, r) →
  ∃ w, r = ([TStr w], []) ∧ argument_token w = true
       ∧ squeeze s = ("," +:+ w) +:+ squeeze rest
       ∧ String.length rest < String.length s.
Proof.
  unfold tail. intros (r0 & H & ->)%parse_And_inv. cbn [map] in H.
  apply And_parseImpl_cons_inv in H as (s1 & r1 & ra & H1 & H & ->).
  apply And_parseImpl_cons_inv in H as (s2 & r2 & rb & H2 & H & ->).
  apply And_parseImpl_nil_inv in H as [-> ->].
  apply parse_Suppress_Literal_inv in H1 as (-> & Hs1 & Hl1); [|done].
  apply parse_argument_inv in H2 as (w & -> & Hw & Hs2 & Hl2).
  exists w. rewrite squeeze_preParse in Hs1. pose proof (length_preParse s).
  rewrite Hs1, Hs2, app_assoc. split_and!; [done..|lia].
Qed.

Lemma foldl_iadd_strs (toks : list Token) (ws : list string) :
  foldl (λ acc w, iadd acc ([TStr w], [])) (toks, []) ws = (toks ++ map TStr ws, []).
Proof.
  revert toks. induction ws as [|w ws IH]; intros toks; cbn [foldl map].
  - by rewrite List.app_nil_r.
  - unfold iadd at 2. cbn [fst snd app]. rewrite IH. by rewrite <-List.app_assoc.
Qed.

Lemma concat_cons_tail (w : string) (ws : list string) (t : string) :
  w +:+ foldr (λ x t, ("," +:+ x) +:+ t) t ws = String.concat "," (w :: ws) +:+ t.
Proof.
  revert w. induction ws as [|w' ws IH]; intros w; [done|].
  cbn [foldr]. rewrite app_assoc, IH.
  change (String.concat "," (w :: w' :: ws))
    with (w +:+ "," +:+ String.concat "," (w' :: ws)).
  by rewrite !app_assoc.
Qed.

Lemma parse_arguments_inv s rest r :
  _parse arguments_flat s = Some (rest, r) →
  ∃ w ws, r = (map TStr (w :: ws), [("args", TResults (map TStr (w :: ws)) [])])
          ∧ Forall (λ a, argument_token a = true) (w :: ws)
          ∧ squeeze s = ("(" +:+ String.concat "," (w :: ws) +:+ ")") +:+ squeeze rest
          ∧ String.length rest < String.length s.
Proof.
  unfold arguments_flat. intros (r0 & H & ->)%parse_And_inv. cbn [map] in H.
  apply And_parseImpl_cons_inv in H as (s1 & r1 & ra & H1 & H & ->).
  apply And_parseImpl_cons_inv in H as (s2 & r2 & rb & H2 & H & ->).
  apply And_parseImpl_cons_inv in H as (s3 & r3 & rc & H3 & H & ->).
  apply And_parseImpl_cons_inv in H as (s4 & r4 & rd & H4 & H & ->).
  apply And_parseImpl_nil_inv in H as [-> ->].
  apply parse_Suppress_Literal_inv in H1 as (-> & Hs1 & Hl1); [|done].
  apply parse_argument_inv in H2 as (w & -> & Hw & Hs2 & Hl2).
  apply parse_Suppress_Literal_inv in H4 as (-> & Hs4 & Hl4); [|done].
  cbn [_parse] in H3.
  apply (ZeroOrMore_parseImpl_inv _ (λ w, ([TStr w], [])) (λ w, "," +:+ w)
           (λ w, argument_token w = true) parse_tail_inv) in H3
    as (ws & -> & Hws & Hs3 & Hl3).
  exists w, ws. rewrite squeeze_preParse in Hs1, Hs3.
  pose proof (length_preParse s). pose proof (length_preParse s2).
  unfold no_tokens. rewrite foldl_iadd_strs. split_and!.
  - unfold iadd, with_name. cbn. by rewrite List.app_nil_r.
  - by constructor.
  - rewrite Hs1, Hs2, Hs3, Hs4. rewrite concat_cons_tail. by rewrite !app_assoc.
  - lia.
Qed.

(** *** a sentence, and the row it is grouped into *)
Lemma parse_sentence_inv s rest r :
  _parse sentence_flat s = Some (rest, r) →
  ∃ p, r = (TStr (id p) :: map TStr (args p),
            [("id", TStr (id p)); ("args", TResults (map TStr (args p)) [])])
       ∧ well_formed p = true
       ∧ squeeze s = sentence_text p +:+ squeeze rest
       ∧ String.length rest < String.length s.
Proof.
  unfold sentence_flat. intros (r0 & H & ->)%parse_And_inv. cbn [map] in H.
  apply And_parseImpl_cons_inv in H as (s1 & r1 & ra & H1 & H & ->).
  apply And_parseImpl_cons_inv in H as (s2 & r2 & rb & H2 & H & ->).
  apply And_parseImpl_cons_inv in H as (s3 & r3 & rc & H3 & H & ->).
  apply And_parseImpl_nil_inv in H as [-> ->].
  apply (parse_Word_inv _ _ _ _ _ alphas_not_white) in H1 as (n & -> & Hn & Hs1 & Hl1).
  apply parse_arguments_inv in H2 as (w & ws & -> & Hws & Hs2 & Hl2).
  apply parse_Suppress_Literal_inv in H3 as (-> & Hs3 & Hl3); [|done].
  exists (mkPredicate n (w :: ws)). rewrite squeeze_preParse in Hs1.
  pose proof (length_preParse s). split_and!.
  - unfold with_name, iadd, no_tokens. cbn. by rewrite List.app_nil_r.
  - unfold well_formed. cbn [id args]. rewrite Hn. cbn [andb].
    apply forallb_forall. intros a Ha.
    by apply (proj1 (Forall_forall _ _) Hws), list_elem_of_In.
  - rewrite Hs1, Hs2, Hs3. unfold sentence_text, to_pred. cbn [id args].
    by rewrite !app_assoc.
  - lia.
Qed.

Lemma parse_Group_sentence_inv s rest r :
  _parse (Group sentence_flat) s = Some (rest, r) →
  ∃ p, r = ([group_of p], []) ∧ well_formed p = true
       ∧ squeeze s = sentence_text p +:+ squeeze rest
       ∧ String.length rest < String.length s.
Proof.
  cbn [_parse]. intros ([rest' r'] & H & [= <- <-])%bind_Some.
  apply parse_sentence_inv in H as (p & -> & Hp & Hs & Hl).
  exists p. rewrite squeeze_preParse in Hs. pose proof (length_preParse s).
  split_and!; [done..|lia].
Qed.

Lemma foldl_iadd_groups (toks : list Token) (ps : list Predicate) :
  foldl (λ acc p, iadd acc ([group_of p], [])) (toks, []) ps
  = (toks ++ map group_of ps, []).
Proof.
  revert toks. induction ps as [|p ps IH]; intros toks; cbn [foldl map].
  - by rewrite List.app_nil_r.
  - unfold iadd at 2. cbn [fst snd app]. rewrite IH. by rewrite <-List.app_assoc.
Qed.

Lemma foldr_document_text (ps : list Predicate) (t : string) :
  foldr (λ p t, sentence_text p +:+ t) t ps = document_text ps +:+ t.
Proof.
  induction ps as [|p ps IH]; [done|]. cbn [foldr document_text].
  by rewrite IH, app_assoc.
Qed.

Lemma map_str_of_TStr (a : list string) : map str_of (map TStr a) = a.
Proof. induction a as [|x a IH]; [done|]. cbn. by rewrite IH. Qed.

Lemma Predicate_of_group_of p : Predicate_of (group_of p) = p.
Proof.
  destruct p as [n a]. unfold Predicate_of, group_of. cbn.
  f_equal. apply map_str_of_TStr.
Qed.

Lemma predicates_groups ps : predicates (map group_of ps, []) = ps.
Proof.
  unfold predicates. cbn [fst]. induction ps as [|p ps IH]; [done|].
  cbn [map]. by rewrite Predicate_of_group_of, IH.
Qed.

(** *** the whole document *)
Lemma parse_document_inv s rest r :
  _parse (OneOrMore (Group sentence_flat)) s = Some (rest, r) →
  ∃ p ps, r = (map group_of (p :: ps), [])
          ∧ Forall (λ p, well_formed p = true) (p :: ps)
          ∧ squeeze s = document_text (p :: ps) +:+ squeeze rest.
Proof.
  cbn [_parse]. intros H.
  apply (OneOrMore_parseImpl_inv _ (λ p, ([group_of p], [])) sentence_text
           (λ p, well_formed p = true) parse_Group_sentence_inv) in H
    as (p & ps & -> & Hps & Hs & _).
  exists p, ps. rewrite squeeze_preParse in Hs.
  rewrite foldl_iadd_groups. split_and!; [done..|].
  rewrite Hs. apply (foldr_document_text (p :: ps)).
Qed.

Lemma streamline_prolog_parser :
  streamline prolog_parser = OneOrMore (Group sentence_flat).
Proof. reflexivity. Qed.


(** *** the bound of the two loops of the grammar

    Each turn of a loop consumes at least one character, so the number of
    turns allowed (the length of the text) is never what ends it. *)
Lemma tail_loop_fuel fuel1 fuel2 s tokens :
  String.length s ≤ fuel1 → String.length s ≤ fuel2 →
  repeat_parse (_parse tail) fuel1 s tokens = repeat_parse (_parse tail) fuel2 s tokens.
Proof.
  apply (repeat_parse_fuel _ (λ w, ([TStr w], [])) (λ w, "," +:+ w)
           (λ w, argument_token w = true) parse_tail_inv).
Qed.

Lemma sentence_loop_fuel fuel1 fuel2 s tokens :
  String.length s ≤ fuel1 → String.length s ≤ fuel2 →
  repeat_parse (_parse (Group sentence_flat)) fuel1 s tokens
  = repeat_parse (_parse (Group sentence_flat)) fuel2 s tokens.
Proof.
  apply (repeat_parse_fuel _ (λ p, ([group_of p], [])) sentence_text
           (λ p, well_formed p = true) parse_Group_sentence_inv).
Qed.

(** *** streamlining does not change what the grammar matches *)
Lemma parse_preParse e s : _parse e (preParse s) = _parse e s.
Proof. destruct e; cbn [_parse]; by rewrite preParse_idemp. Qed.

Lemma iadd_assoc (a b c : ParseResults) : iadd (iadd a b) c = iadd a (iadd b c).
Proof. unfold iadd. cbn. by rewrite <-!List.app_assoc. Qed.

Lemma iadd_no_tokens_l (a : ParseResults) : iadd no_tokens a = a.
Proof. by destruct a. Qed.

Lemma iadd_no_tokens_r (a : ParseResults) : iadd a no_tokens = a.
Proof. destruct a. unfold iadd. cbn. by rewrite !List.app_nil_r. Qed.

Lemma And_parseImpl_app ps qs s :
  And_parseImpl (ps ++ qs) s =
    match And_parseImpl ps s with
    | None => None
    | Some (s1, r1) =>
        match And_parseImpl qs s1 with
        | None => None
        | Some (s2, r2) => Some (s2, iadd r1 r2)
        end
    end.
Proof.
  revert s. induction ps as [|p ps IH]; intros s.
  - cbn [app And_parseImpl]. destruct (And_parseImpl qs s) as [[s2 r2]|]; [|done].
    by rewrite iadd_no_tokens_l.
  - cbn [app And_parseImpl]. destruct (p s) as [[s1 r1]|]; [|done]. cbn.
    rewrite IH. destruct (And_parseImpl ps s1) as [[s2 r2]|]; [|done]. cbn.
    destruct (And_parseImpl qs s2) as [[s3 r3]|]; [|done]. cbn.
    by rewrite iadd_assoc.
Qed.

Lemma parse_plain_And es s :
  es ≠ [] → _parse (And es None) s = And_parseImpl (map _parse es) s.
Proof.
  intros Hes. destruct es as [|e es]; [done|]. cbn [_parse map And_parseImpl with_name].
  rewrite parse_preParse.
  destruct (_parse e s) as [[s1 r1]|]; [|done]. cbn.
  by destruct (And_parseImpl (map _parse es) s1) as [[s2 r2]|].
Qed.

(** a sum without results name inside a sum matches as its elements do in
    its place *)
Lemma And_flatten ps inner qs s :
  inner ≠ [] →
  And_parseImpl (ps ++ _parse (And inner None) :: qs) s
  = And_parseImpl (ps ++ map _parse inner ++ qs) s.
Proof.
  intros Hinner. rewrite !And_parseImpl_app.
  destruct (And_parseImpl ps s) as [[s1 r1]|]; [|done].
  cbn [And_parseImpl]. rewrite parse_plain_And by done.
  rewrite (And_parseImpl_app (map _parse inner) qs).
  destruct (And_parseImpl (map _parse inner) s1) as [[s2 r2]|]; [|done]. cbn.
  by destruct (And_parseImpl qs s2) as [[s3 r3]|].
Qed.

Lemma parse_arguments_flat s : _parse arguments s = _parse arguments_flat s.
Proof.
  unfold arguments, arguments_flat, set_results_name, add_, delimited_list.
  cbn [_parse]. f_equal. cbn [map].
  etrans; [apply (And_flatten [] [Suppress (Literal "("); And _ None]); done|].
  cbn [app map].
  apply (And_flatten [_parse (Suppress (Literal "("))] [argument; ZeroOrMore _]). done.
Qed.

Lemma parse_sentence_flat s : _parse sentence s = _parse sentence_flat s.
Proof.
  unfold sentence, sentence_flat, fact, add_.
  cbn [_parse]. f_equal. cbn [map].
  etrans; [apply (And_flatten [] [predicate; arguments]); done|].
  cbn [app map And_parseImpl].
  destruct (_parse predicate (preParse s)) as [[s1 r1]|]; [|done].
  cbn [mbind option_bind]. by rewrite parse_arguments_flat.
Qed.

Lemma repeat_parse_ext (p q : parse_fun) fuel s tokens :
  (∀ s, p s = q s) → repeat_parse p fuel s tokens = repeat_parse q fuel s tokens.
Proof.
  intros Hpq. revert s tokens. induction fuel as [|fuel IH]; intros s tokens; [done|].
  cbn. rewrite Hpq. destruct (q s) as [[s' r]|]; [|done]. apply IH.
Qed.

(** The grammar as [create_parser] builds it and the grammar as the first
    parse flattens it give the same result on every text. *)
Lemma parse_prolog_parser_streamline s :
  _parse (streamline prolog_parser) s = _parse prolog_parser s.
Proof.
  rewrite streamline_prolog_parser. unfold prolog_parser.
  cbn [_parse]. unfold OneOrMore_parseImpl.
  rewrite <-parse_sentence_flat.
  destruct (_parse sentence (preParse (preParse s))) as [[s1 r1]|]; [|done].
  cbn [mbind option_bind]. f_equal. apply repeat_parse_ext. intros s'. cbn [_parse].
  by rewrite parse_sentence_flat.
Qed.

End ParseFacts.

(** ** The module state and [parse_file] *)

Module RunFacts.
Import Str StrFacts PyParsing Py Parser Lernd Experiments Shape ParseFacts Run.

Lemma streamline_parser_prolog st :
  prolog_inv st → streamline_parser (prolog st) = streamlined_prolog.
Proof. by intros [-> | ->]. Qed.

Lemma parse_string_fst p text b : (parse_string p text b).1 = streamline_parser p.
Proof. done. Qed.

(** The outcome of a parse only depends on the streamlined parser. *)
Lemma parse_string_snd p q text b :
  streamline_parser p = streamline_parser q →
  (parse_string p text b).2 = (parse_string q text b).2.
Proof. unfold parse_string. cbn. by intros ->. Qed.

Lemma parse_file_state st fs filename :
  prolog_inv st → prolog_inv (parse_file fs filename st).1.
Proof.
  intros Hst. unfold parse_file. destruct (fs !! filename) as [text|]; [|done].
  destruct (parse_string (prolog st) text true) as [p result] eqn:E. cbn.
  right. change p with (p, result).1. rewrite <-E, parse_string_fst.
  by apply streamline_parser_prolog.
Qed.

Lemma parse_file_snd st fs filename :
  (parse_file fs filename st).2 =
    match fs !! filename with
    | None => inl FileNotFoundError
    | Some text =>
        match (parse_string (prolog st) text true).2 with
        | inl e => inl e
        | inr r => inr (predicates r)
        end
    end.
Proof.
  unfold parse_file. destruct (fs !! filename) as [text|]; [|done].
  by destruct (parse_string (prolog st) text true) as [p result].
Qed.

Lemma parse_file_outcome st fs filename :
  prolog_inv st → (parse_file fs filename st).2 = parse_file_fresh fs filename.
Proof.
  intros Hst. unfold parse_file_fresh. rewrite !parse_file_snd.
  destruct (fs !! filename) as [text|]; [|done]. cbn [prolog].
  rewrite (parse_string_snd (prolog st) (create_parser ())); [done|].
  by rewrite streamline_parser_prolog.
Qed.

(** a monadic step on a computation whose outcome is known *)
Lemma bind_run {A B} (m : M A) (f : A → M B) st :
  (m ≫= f) st =
    match (m st).2 with
    | inl e => ((m st).1, inl e)
    | inr x => f x (m st).1
    end.
Proof. unfold mbind, M_bind. by destruct (m st) as [st' [e|x]]. Qed.

Lemma setup_custom_state st fs example_path :
  prolog_inv st → prolog_inv (setup_custom fs example_path st).1.
Proof.
  intros Hst. unfold setup_custom.
  rewrite bind_run.
  pose proof (parse_file_state st fs (joinpath example_path "bk.pl") Hst) as H1.
  destruct (parse_file fs (joinpath example_path "bk.pl") st) as [st1 [e|bk]];
    cbn [fst snd] in *; [done|].
  rewrite bind_run.
  pose proof (parse_file_state st1 fs (joinpath example_path "pos.pl") H1) as H2.
  destruct (parse_file fs (joinpath example_path "pos.pl") st1) as [st2 [e|pos]];
    cbn [fst snd] in *; [done|].
  rewrite bind_run.
  pose proof (parse_file_state st2 fs (joinpath example_path "neg.pl") H2) as H3.
  destruct (parse_file fs (joinpath example_path "neg.pl") st2) as [st3 [e|neg]];
    cbn [fst snd] in *; [done|].
  rewrite bind_run. unfold getitem. by destruct (pos !! 0).
Qed.

Lemma reachable_prolog_inv st : reachable st → prolog_inv st.
Proof.
  induction 1 as [|st fs filename _ IH|st fs example_path _ IH].
  - by left.
  - by apply parse_file_state.
  - by apply setup_custom_state.
Qed.

Lemma reachable_outcome st fs filename :
  reachable st → (parse_file fs filename st).2 = parse_file_fresh fs filename.
Proof. intros H%reachable_prolog_inv. by apply parse_file_outcome. Qed.

(** *** what a parse of a file returns *)
Lemma squeeze_expandtabs text : squeeze (expandtabs text) = squeeze text.
Proof. by apply expandtabs_from_remove. Qed.

Lemma parse_file_fresh_snd fs filename :
  parse_file_fresh fs filename =
    match fs !! filename with
    | None => inl FileNotFoundError
    | Some text =>
        match _parse (OneOrMore (Group sentence_flat)) (expandtabs text) with
        | None => inl ParseException
        | Some (rest, tokens) =>
            match preParse rest with
            | EmptyString => inr (predicates tokens)
            | String _ _ => inl ParseException
            end
        end
    end.
Proof.
  unfold parse_file_fresh. rewrite parse_file_snd.
  destruct (fs !! filename) as [text|]; [|done].
  unfold parse_string. cbn [snd prolog create_parser new_parser streamline_parser
                            streamlined expr_of].
  rewrite streamline_prolog_parser.
  destruct (_parse (OneOrMore (Group sentence_flat)) (expandtabs text))
    as [[rest tokens]|]; [|done].
  by destruct (preParse rest).
Qed.

Lemma parse_file_fresh_inv fs filename results :
  parse_file_fresh fs filename = inr results →
  ∃ text, fs !! filename = Some text
          ∧ results ≠ []
          ∧ Forall (λ p, well_formed p = true) results
          ∧ squeeze text = document_text results.
Proof.
  rewrite parse_file_fresh_snd.
  destruct (fs !! filename) as [text|]; [|done].
  destruct (_parse (OneOrMore (Group sentence_flat)) (expandtabs text))
    as [[rest tokens]|] eqn:E; [|done].
  destruct (preParse rest) eqn:Hrest; [|done]. intros [= <-].
  apply parse_document_inv in E as (p & ps & -> & Hps & Hs).
  exists text. rewrite predicates_groups. split_and!; [done..|].
  rewrite squeeze_expandtabs in Hs. rewrite Hs.
  rewrite (preParse_squeeze_nil _ Hrest). apply StrFacts.app_nil_r.
Qed.

Lemma parse_file_fresh_error fs filename e :
  parse_file_fresh fs filename = inl e →
  (fs !! filename = None ∧ e = FileNotFoundError)
  ∨ (is_Some (fs !! filename) ∧ e = ParseException).
Proof.
  rewrite parse_file_fresh_snd.
  destruct (fs !! filename) as [text|]; [|intros [= <-]; by left].
  intros H. right. split; [done|].
  destruct (_parse (OneOrMore (Group sentence_flat)) (expandtabs text))
    as [[rest tokens]|]; [|by injection H].
  destruct (preParse rest); [done|by injection H].
Qed.

(** *** what [setup_custom] returns *)
Lemma setup_custom_outcome st fs example_path :
  prolog_inv st →
  (setup_custom fs example_path st).2 =
    match parse_file_fresh fs (joinpath example_path "bk.pl") with
    | inl e => inl e
    | inr bk =>
    match parse_file_fresh fs (joinpath example_path "pos.pl") with
    | inl e => inl e
    | inr positive_exs =>
    match parse_file_fresh fs (joinpath example_path "neg.pl") with
    | inl e => inl e
    | inr negative_exs =>
    match positive_exs with
    | [] => inl IndexError
    | first :: _ =>
        inr (mkILP (Py.name example_path)
               (mkLanguageModel (str2pred (to_pred_str first))
                  (map str2pred (get_pred_str_list bk))
                  (map Constant
                     (elements (list_to_set (get_all_unique_args bk
                                             ++ get_all_unique_args positive_exs
                                             ++ get_all_unique_args negative_exs)
                                : gset string))))
               (map (λ predicate, str2ground_atom (to_pred predicate)) bk)
               (map (λ predicate, str2ground_atom (to_pred predicate)) positive_exs)
               (map (λ predicate, str2ground_atom (to_pred predicate)) negative_exs),
             mkProgramTemplate [str2pred "pred/2"]
               (<[str2pred "pred/2" := (mkRuleTemplate 1 false, None)]>
                  (<[str2pred (to_pred_str first) :=
                       (mkRuleTemplate 0 false, Some (mkRuleTemplate 1 true))]> ∅))
               6)
    end end end end.
Proof.
  intros Hst. unfold setup_custom.
  rewrite bind_run.
  pose proof (parse_file_state st fs (joinpath example_path "bk.pl") Hst) as H1.
  rewrite (parse_file_outcome st) by done.
  destruct (parse_file_fresh fs (joinpath example_path "bk.pl")) as [e|bk]; [done|].
  rewrite bind_run.
  pose proof (parse_file_state _ fs (joinpath example_path "pos.pl") H1) as H2.
  rewrite (parse_file_outcome _ fs (joinpath example_path "pos.pl")) by done.
  destruct (parse_file_fresh fs (joinpath example_path "pos.pl")) as [e|pos]; [done|].
  rewrite bind_run.
  rewrite (parse_file_outcome _ fs (joinpath example_path "neg.pl")) by done.
  destruct (parse_file_fresh fs (joinpath example_path "neg.pl")) as [e|neg]; [done|].
  rewrite bind_run. unfold getitem. by destruct pos.
Qed.

End RunFacts.

(** ** Sentences written without white space are parsed back *)

Module Canonical.
Import Str StrFacts PyParsing Py Parser Shape Run ParseFacts RunFacts.

Lemma alphas_not_number c : mem c alphas = true → mem c (nums +:+ ".") = false.
Proof. destruct c as [[] [] [] [] [] [] [] []]; vm_compute; done. Qed.

Lemma preParse_nonwhite c s :
  mem c DEFAULT_WHITE_CHARS = false → preParse (String c s) = String c s.
Proof. intros Hc. cbn [preParse]. by rewrite Hc. Qed.

Lemma preParse_word cs w r :
  (∀ c, mem c cs = true → mem c DEFAULT_WHITE_CHARS = false) →
  word_over cs w = true → preParse (w +:+ r) = w +:+ r.
Proof.
  intros Hcs [Hne Hw]%word_over_spec. destruct w as [|c w]; [done|].
  cbn [all_in] in Hw. apply andb_prop in Hw as [Hc _].
  rewrite app_cons. apply preParse_nonwhite. by apply Hcs.
Qed.

Lemma parse_Word_here cs name w c r :
  (∀ c, mem c cs = true → mem c DEFAULT_WHITE_CHARS = false) →
  word_over cs w = true → mem c cs = false →
  _parse (Word cs name) (w +:+ String c r)
  = Some (String c r, with_name name false ([TStr w], [])).
Proof.
  intros Hcs Hw Hc. cbn [_parse]. rewrite (preParse_word cs) by done.
  apply word_over_spec in Hw as [Hne Hw].
  unfold Word_parseImpl. rewrite span_word by done. by destruct w.
Qed.

Lemma parse_Suppress_char c r :
  mem c DEFAULT_WHITE_CHARS = false →
  _parse (Suppress (Literal (String c ""))) (String c r) = Some (r, no_tokens).
Proof.
  intros Hc. cbn [_parse]. rewrite !preParse_nonwhite by done.
  unfold Literal_parseImpl. cbn [strip_prefix]. by rewrite decide_True.
Qed.

Lemma parse_Suppress_char_fails c d r :
  mem d DEFAULT_WHITE_CHARS = false → c ≠ d →
  _parse (Suppress (Literal (String c ""))) (String d r) = None.
Proof.
  intros Hd Hcd. cbn [_parse]. rewrite !preParse_nonwhite by done.
  unfold Literal_parseImpl. cbn [strip_prefix]. by rewrite decide_False.
Qed.

(** an argument followed by a comma or a closing parenthesis *)
Lemma parse_argument_here w c r :
  argument_token w = true → c = ","%char ∨ c = ")"%char →
  _parse argument (w +:+ String c r) = Some (String c r, ([TStr w], [])).
Proof.
  intros Hw Hc. unfold argument, or_. cbn [_parse map MatchFirst_parseImpl].
  fold number variable. rewrite !parse_preParse.
  destruct (word_over (nums +:+ ".") w) eqn:Hnum.
  - unfold number. rewrite (parse_Word_here _ _ _ _ _ number_not_white); [done..|].
    by destruct Hc as [-> | ->].
  - unfold argument_token in Hw. rewrite Hnum in Hw. cbn [orb] in Hw.
    assert (_parse number (w +:+ String c r) = None) as ->.
    { unfold number. cbn [_parse]. rewrite (preParse_word alphas) by
        (done || apply alphas_not_white).
      apply word_over_spec in Hw as [Hne Hw]. destruct w as [|a w]; [done|].
      cbn [all_in] in Hw. apply andb_prop in Hw as [Ha _].
      rewrite app_cons. unfold Word_parseImpl. cbn [span].
      by rewrite (alphas_not_number a Ha). }
    unfold variable. rewrite (parse_Word_here _ _ _ _ _ alphas_not_white); [done..|].
    by destruct Hc as [-> | ->].
Qed.

Lemma tail_text_head ws r :
  ∃ c r', tail_text ws (")" +:+ r) = String c r' ∧ (c = ","%char ∨ c = ")"%char).
Proof.
  destruct ws as [|w ws]; cbn [tail_text foldr].
  - exists ")"%char, r. by split; [|right].
  - exists ","%char, (w +:+ tail_text ws (")" +:+ r)). split; [|by left].
    by rewrite app_assoc.
Qed.

Lemma length_tail_text ws t : length ws ≤ String.length (tail_text ws t).
Proof.
  induction ws as [|w ws IH]; cbn [tail_text foldr length]; [lia|].
  rewrite !length_app. fold (tail_text ws t). cbn [String.length]. lia.
Qed.

Lemma parse_tail_here w ws r :
  argument_token w = true →
  _parse tail (("," +:+ w) +:+ tail_text ws (")" +:+ r))
  = Some (tail_text ws (")" +:+ r), ([TStr w], [])).
Proof.
  intros Hw. destruct (tail_text_head ws r) as (c & r' & -> & Hc).
  unfold tail. rewrite parse_plain_And by done. cbn [map And_parseImpl].
  rewrite app_assoc. change ("," +:+ w +:+ String c r') with (String "," (w +:+ String c r')).
  rewrite parse_Suppress_char by done. cbn [mbind option_bind].
  by rewrite parse_argument_here.
Qed.

Lemma parse_tail_stops r : _parse tail (")" +:+ r) = None.
Proof.
  unfold tail. rewrite parse_plain_And by done. cbn [map And_parseImpl].
  change (")" +:+ r) with (String ")" r).
  by rewrite parse_Suppress_char_fails.
Qed.

Lemma repeat_tail_here ws fuel r tokens :
  Forall (λ a, argument_token a = true) ws → length ws ≤ fuel →
  repeat_parse (_parse tail) fuel (tail_text ws (")" +:+ r)) tokens
  = (")" +:+ r, foldl (λ acc w, iadd acc ([TStr w], [])) tokens ws).
Proof.
  intros Hws. revert fuel tokens.
  induction Hws as [|w ws Hw _ IH]; intros fuel tokens Hfuel.
  - cbn [tail_text foldr foldl]. destruct fuel as [|fuel].
    + done.
    + cbn [repeat_parse]. by rewrite parse_tail_stops.
  - cbn [length] in Hfuel. destruct fuel as [|fuel]; [lia|].
    cbn [tail_text foldr foldl repeat_parse]. fold (tail_text ws (")" +:+ r)).
    rewrite parse_tail_here by done. apply IH. lia.
Qed.

Lemma parse_arguments_here w ws r :
  Forall (λ a, argument_token a = true) (w :: ws) →
  _parse arguments_flat (("(" +:+ String.concat "," (w :: ws) +:+ ")") +:+ r)
  = Some (r, (map TStr (w :: ws), [("args", TResults (map TStr (w :: ws)) [])])).
Proof.
  intros [Hw Hws]%Forall_cons. unfold arguments_flat. cbn [_parse].
  rewrite !app_assoc. rewrite <-concat_cons_tail. fold (tail_text ws (")" +:+ r)).
  change ("(" +:+ w +:+ tail_text ws (")" +:+ r))
    with (String "(" (w +:+ tail_text ws (")" +:+ r))).
  rewrite preParse_nonwhite by done. cbn [map And_parseImpl].
  rewrite parse_Suppress_char by done. cbn [mbind option_bind].
  destruct (tail_text_head ws r) as (c & r' & E & Hc).
  rewrite E, parse_argument_here by done. rewrite <-E. cbn [mbind option_bind].
  assert (_parse (ZeroOrMore tail) (tail_text ws (")" +:+ r))
          = Some (")" +:+ r, (map TStr ws, []))) as ->.
  { cbn [_parse]. rewrite E, preParse_nonwhite by (by destruct Hc as [-> | ->]).
    rewrite <-E. unfold ZeroOrMore_parseImpl, OneOrMore_parseImpl.
    destruct Hws as [|w' ws Hw' Hws].
    - cbn [tail_text foldr]. by rewrite parse_tail_stops.
    - cbn [tail_text foldr]. fold (tail_text ws (")" +:+ r)).
      rewrite parse_tail_here by done. cbn [mbind option_bind].
      rewrite repeat_tail_here by (done || apply length_tail_text).
      by rewrite (foldl_iadd_strs [TStr w'] ws). }
  cbn [mbind option_bind]. change (")" +:+ r) with (String ")" r).
  rewrite parse_Suppress_char by done. cbn [mbind option_bind].
  do 2 f_equal. unfold with_name, iadd, no_tokens. cbn. by rewrite !List.app_nil_r.
Qed.

Lemma parse_sentence_here p r :
  well_formed p = true →
  _parse sentence_flat (sentence_text p +:+ r)
  = Some (r, (TStr (id p) :: map TStr (args p),
              [("id", TStr (id p)); ("args", TResults (map TStr (args p)) [])])).
Proof.
  destruct p as [n a]. unfold well_formed. cbn [id args].
  intros [[Hn Hne]%andb_prop Ha]%andb_prop.
  destruct a as [|w ws]; [done|].
  assert (Forall (λ a, argument_token a = true) (w :: ws)) as Hargs.
  { apply Forall_forall. intros x Hx%list_elem_of_In.
    by apply (proj1 (forallb_forall _ _) Ha). }
  unfold sentence_flat, sentence_text, to_pred. cbn [id args].
  rewrite parse_plain_And by done. cbn [map And_parseImpl].
  rewrite !app_assoc.
  change ("(" +:+ String.concat "," (w :: ws) +:+ ")" +:+ "." +:+ r)
    with (String "(" (String.concat "," (w :: ws) +:+ ")" +:+ "." +:+ r)).
  unfold predicate, set_results_name.
  rewrite (parse_Word_here _ _ _ _ _ alphas_not_white) by done.
  cbn [mbind option_bind].
  change (String "(" (String.concat "," (w :: ws) +:+ ")" +:+ "." +:+ r))
    with ("(" +:+ String.concat "," (w :: ws) +:+ ")" +:+ "." +:+ r).
  rewrite <-(app_assoc (String.concat "," (w :: ws))).
  rewrite <-(app_assoc "(").
  rewrite parse_arguments_here by done. cbn [mbind option_bind].
  change ("." +:+ r) with (String "." r).
  rewrite parse_Suppress_char by done. cbn [mbind option_bind].
  do 2 f_equal. unfold with_name, iadd, no_tokens. cbn. by rewrite !List.app_nil_r.
Qed.

Lemma parse_Group_sentence_here p r :
  well_formed p = true →
  _parse (Group sentence_flat) (sentence_text p +:+ r) = Some (r, ([group_of p], [])).
Proof.
  intros Hp. cbn [_parse]. rewrite parse_preParse, parse_sentence_here by done.
  done.
Qed.

Lemma parse_Group_sentence_end : _parse (Group sentence_flat) "" = None.
Proof. reflexivity. Qed.

Lemma length_document_text ps : length ps ≤ String.length (document_text ps).
Proof.
  induction ps as [|p ps IH]; cbn [document_text length]; [lia|].
  unfold sentence_text. rewrite !length_app. cbn [String.length]. lia.
Qed.

Lemma repeat_sentences_here ps fuel tokens :
  Forall (λ p, well_formed p = true) ps → length ps ≤ fuel →
  repeat_parse (_parse (Group sentence_flat)) fuel (document_text ps) tokens
  = ("", foldl (λ acc p, iadd acc ([group_of p], [])) tokens ps).
Proof.
  intros Hps. revert fuel tokens.
  induction Hps as [|p ps Hp _ IH]; intros fuel tokens Hfuel.
  - cbn [document_text foldl]. by destruct fuel.
  - cbn [length] in Hfuel. destruct fuel as [|fuel]; [lia|].
    cbn [document_text foldl repeat_parse].
    rewrite parse_Group_sentence_here by done. apply IH. lia.
Qed.

(** The grammar run on the sentences of well-formed predicates, written one
    after the other, consumes them all and returns their rows. *)
Lemma parse_document_here p ps :
  Forall (λ p, well_formed p = true) (p :: ps) →
  _parse (OneOrMore (Group sentence_flat)) (document_text (p :: ps))
  = Some ("", (map group_of (p :: ps), [])).
Proof.
  intros [Hp Hps]%Forall_cons.
  change (_parse (OneOrMore (Group sentence_flat)) (document_text (p :: ps)))
    with (OneOrMore_parseImpl (_parse (Group sentence_flat))
            (preParse (document_text (p :: ps)))).
  cbn [document_text]. unfold OneOrMore_parseImpl.
  rewrite parse_preParse, parse_Group_sentence_here by done.
  cbn [mbind option_bind].
  rewrite repeat_sentences_here by (done || apply length_document_text).
  by rewrite (foldl_iadd_groups [group_of p] ps).
Qed.

(** *** such a text has no tab to expand *)
Lemma expandtabs_from_no_tab column s :
  mem "009" s = false → expandtabs_from column s = s.
Proof.
  revert column. induction s as [|c s IH]; intros column; [done|].
  cbn [mem expandtabs_from]. destruct (decide ("009"%char = c)) as [<-|Hc]; [done|].
  intros Hs. rewrite decide_False by done.
  destruct (bool_decide (c = "010"%char) || bool_decide (c = "013"%char));
    by rewrite IH.
Qed.

Lemma all_in_no_tab cs s :
  mem "009" cs = false → all_in cs s = true → mem "009" s = false.
Proof.
  intros Hcs. induction s as [|c s IH]; [done|]. cbn [all_in mem].
  intros [Hc Hs]%andb_prop. destruct (decide ("009"%char = c)) as [<-|_].
  - by rewrite Hcs in Hc.
  - by apply IH.
Qed.

Lemma all_in_weaken cs ds s :
  (∀ c, mem c cs = true → mem c ds = true) → all_in cs s = true → all_in ds s = true.
Proof.
  intros Hsub. induction s as [|c s IH]; [done|]. cbn [all_in].
  intros [Hc Hs]%andb_prop. by rewrite (Hsub _ Hc), IH.
Qed.

Lemma alphas_sentence_chars c : mem c alphas = true → mem c sentence_chars = true.
Proof. destruct c as [[] [] [] [] [] [] [] []]; vm_compute; done. Qed.

Lemma number_sentence_chars c :
  mem c (nums +:+ ".") = true → mem c sentence_chars = true.
Proof. destruct c as [[] [] [] [] [] [] [] []]; vm_compute; done. Qed.

Lemma argument_sentence_chars w :
  argument_token w = true → all_in sentence_chars w = true.
Proof.
  intros [[_ H]%word_over_spec|[_ H]%word_over_spec]%orb_prop.
  - by apply (all_in_weaken _ _ _ number_sentence_chars).
  - by apply (all_in_weaken _ _ _ alphas_sentence_chars).
Qed.

Lemma concat_sentence_chars ws :
  Forall (λ a, argument_token a = true) ws →
  all_in sentence_chars (String.concat "," ws) = true.
Proof.
  induction 1 as [|w ws Hw Hws IH]; [done|].
  destruct ws as [|w' ws].
  - by apply argument_sentence_chars.
  - change (String.concat "," (w :: w' :: ws))
      with (w +:+ "," +:+ String.concat "," (w' :: ws)).
    rewrite !all_in_app, IH, argument_sentence_chars by done. done.
Qed.

Lemma sentence_text_chars p :
  well_formed p = true → all_in sentence_chars (sentence_text p) = true.
Proof.
  unfold well_formed. intros [[[_ Hn]%word_over_spec _]%andb_prop Ha]%andb_prop.
  unfold sentence_text, to_pred. rewrite !all_in_app.
  rewrite (all_in_weaken _ _ _ alphas_sentence_chars Hn).
  rewrite concat_sentence_chars; [done|].
  apply Forall_forall. intros x Hx%list_elem_of_In.
  by apply (proj1 (forallb_forall _ _) Ha).
Qed.

Lemma document_text_chars ps :
  Forall (λ p, well_formed p = true) ps →
  all_in sentence_chars (document_text ps) = true.
Proof.
  induction 1 as [|p ps Hp _ IH]; [done|]. cbn [document_text].
  by rewrite all_in_app, sentence_text_chars, IH.
Qed.

(** A file that holds the sentences of well-formed predicates, written
    without white space, parses to these predicates. *)
Lemma parse_file_fresh_document fs filename p ps :
  Forall (λ p, well_formed p = true) (p :: ps) →
  fs !! filename = Some (document_text (p :: ps)) →
  parse_file_fresh fs filename = inr (p :: ps).
Proof.
  intros Hps Hfile. rewrite parse_file_fresh_snd, Hfile.
  unfold expandtabs. rewrite expandtabs_from_no_tab.
  - rewrite parse_document_here by done. cbn [preParse].
    by rewrite predicates_groups.
  - apply (all_in_no_tab sentence_chars); [done|]. by apply document_text_chars.
Qed.

End Canonical.

(** * The claims *)

Module Claims.
Import Str StrFacts PyParsing Py Parser Lernd Experiments.
Import Shape Run Spec Examples ParseFacts RunFacts.

(** ** The constant collector *)

Lemma foldl_extend_args (results : list Predicate) (res : list string) :
  foldl (λ res predicate, res ++ args predicate) res results
  = res ++ mjoin (map args results).
Proof.
  revert res. induction results as [|p results IH]; intros res; cbn.
  - by rewrite List.app_nil_r.
  - rewrite IH. by rewrite <-List.app_assoc.
Qed.

Lemma elem_of_get_all_unique_args (results : list Predicate) (a : string) :
  a ∈ get_all_unique_args results ↔ ∃ p, p ∈ results ∧ a ∈ args p.
Proof.
  unfold get_all_unique_args. rewrite elem_of_elements, elem_of_list_to_set.
  rewrite foldl_extend_args. cbn [app]. rewrite list_elem_of_join. split.
  - intros (l & Ha & (p & -> & Hp)%list_elem_of_fmap). by exists p.
  - intros (p & Hp & Ha). exists (args p). split; [done|].
    apply list_elem_of_fmap. by exists p.
Qed.

(** C8: [get_all_unique_args] returns a list without duplicates, whose
    elements are exactly the argument tokens of the given predicates, and
    which is, as a set, the same for every permutation of the input. *)
Theorem get_all_unique_args_set (results results' : list Predicate) :
  results ≡ₚ results' →
  NoDup (get_all_unique_args results)
  ∧ (∀ a, a ∈ get_all_unique_args results ↔ ∃ p, p ∈ results ∧ a ∈ args p)
  ∧ (list_to_set (get_all_unique_args results) : gset string)
    = list_to_set (get_all_unique_args results').
Proof.
  intros Hperm. split_and!.
  - unfold get_all_unique_args. apply NoDup_elements.
  - apply elem_of_get_all_unique_args.
  - apply set_eq. intros a. rewrite !elem_of_list_to_set.
    rewrite !elem_of_get_all_unique_args.
    by setoid_rewrite Hperm.
Qed.

Lemma get_all_unique_args_set_witness :
  rows ≡ₚ rows_swapped
  ∧ NoDup (get_all_unique_args rows)
  ∧ (∀ a, a ∈ get_all_unique_args rows ↔ ∃ p, p ∈ rows ∧ a ∈ args p)
  ∧ (list_to_set (get_all_unique_args rows) : gset string)
    = list_to_set (get_all_unique_args rows_swapped).
Proof.
  split; [apply perm_swap|].
  apply (get_all_unique_args_set rows rows_swapped). apply perm_swap.
Defined.

(** ** The shared parser *)

(** C10: in every state the module can reach, [parse_file], which parses
    with the module's parser [prolog], returns what a parser freshly made by
    [create_parser] returns for the same file: the same predicates, or the
    same failure. *)
Theorem parse_file_singleton_fresh (st : module_state) (fs : filesystem)
    (filename : Path) :
  reachable st →
  (parse_file fs filename st).2 = parse_file_fresh fs filename.
Proof.
  intros Hst. apply parse_file_outcome. by apply reachable_prolog_inv.
Qed.

Lemma parse_file_singleton_fresh_witness :
  reachable (parse_file even_fs (joinpath even_dir "bk.pl") module_init).1
  ∧ (parse_file even_fs (joinpath even_dir "pos.pl")
       (parse_file even_fs (joinpath even_dir "bk.pl") module_init).1).2
    = parse_file_fresh even_fs (joinpath even_dir "pos.pl").
Proof.
  split.
  - apply reachable_parse_file, reachable_init.
  - apply parse_file_singleton_fresh. apply reachable_parse_file, reachable_init.
Defined.

(** ** All or nothing *)

(** C5: for a file that exists, [parse_file] either returns predicates that
    account for the whole text (the text without its white space is the
    returned sentences written one after the other, so nothing is left
    over and nothing is missing), or fails with a [ParseException]; when the
    grammar, run from the start of the text, leaves anything but white
    space, the call fails. *)
Theorem parse_file_all_or_nothing (st : module_state) (fs : filesystem)
    (filename : Path) (text : string) :
  reachable st →
  fs !! filename = Some text →
  ((∃ results, (parse_file fs filename st).2 = inr results
               ∧ results ≠ []
               ∧ squeeze text = document_text results)
   ∨ (parse_file fs filename st).2 = inl ParseException)
  ∧ (∀ rest tokens,
       _parse (streamline prolog_parser) (expandtabs text) = Some (rest, tokens) →
       preParse rest ≠ "" →
       (parse_file fs filename st).2 = inl ParseException).
Proof.
  intros Hst Hfile. rewrite (reachable_outcome st) by done. split.
  - destruct (parse_file_fresh fs filename) as [e|results] eqn:E.
    + right. apply parse_file_fresh_error in E as [[E _]|[_ ->]]; [|done].
      by rewrite Hfile in E.
    + left. exists results. split; [done|].
      apply parse_file_fresh_inv in E as (text' & Hfile' & Hne & _ & Hs).
      rewrite Hfile in Hfile'. by injection Hfile' as <-.
  - intros rest tokens Hparse Hrest. rewrite parse_file_fresh_snd, Hfile.
    rewrite streamline_prolog_parser in Hparse. rewrite Hparse.
    by destruct (preParse rest).
Qed.

Lemma parse_file_all_or_nothing_witness :
  reachable module_init
  ∧ spaced_fs !! ["track.pl"] = Some spaced_text
  ∧ ((∃ results, (parse_file spaced_fs ["track.pl"] module_init).2 = inr results
                 ∧ results ≠ []
                 ∧ squeeze spaced_text = document_text results)
     ∨ (parse_file spaced_fs ["track.pl"] module_init).2 = inl ParseException)
  ∧ (∀ rest tokens,
       _parse (streamline prolog_parser) (expandtabs spaced_text)
       = Some (rest, tokens) →
       preParse rest ≠ "" →
       (parse_file spaced_fs ["track.pl"] module_init).2 = inl ParseException).
Proof.
  split; [apply reachable_init|]. split; [reflexivity|].
  apply (parse_file_all_or_nothing module_init spaced_fs ["track.pl"] spaced_text).
  - apply reachable_init.
  - reflexivity.
Defined.

Example parse_spaced :
  (parse_file spaced_fs ["track.pl"] module_init).2
  = inr [mkPredicate "track" ["1"; "2.0"; "abc"]].
Proof. vm_compute. reflexivity. Qed.

Example parse_zero :
  (parse_file {[ ["bk.pl"] := "zero(0)." ]} ["bk.pl"] module_init).2
  = inr [mkPredicate "zero" ["0"]].
Proof. vm_compute. reflexivity. Qed.

Example parse_two_sentences :
  (parse_file {[ ["bk.pl"] := "succ(0,1)." +:+ nl +:+ "succ(1,2)." ]}
     ["bk.pl"] module_init).2
  = inr [mkPredicate "succ" ["0"; "1"]; mkPredicate "succ" ["1"; "2"]].
Proof. vm_compute. reflexivity. Qed.

Example parse_unterminated :
  (parse_file {[ ["foo.pl"] := "foo(1,2" ]} ["foo.pl"] module_init).2
  = inl ParseException.
Proof. vm_compute. reflexivity. Qed.

Example parse_trailing_text :
  (parse_file {[ ["foo.pl"] := "foo(1,2). bar" ]} ["foo.pl"] module_init).2
  = inl ParseException.
Proof. vm_compute. reflexivity. Qed.

(** ** Round trip *)

(** C6: when a file holds a single sentence, [to_pred] of the predicate
    parsed from it, followed by the period, is the text of the file with
    its white space deleted: the name and the argument tokens are the
    characters that were written, in their order, joined by commas. *)
Theorem to_pred_round_trip (st : module_state) (fs : filesystem)
    (filename : Path) (s : string) (p : Predicate) :
  reachable st →
  fs !! filename = Some s →
  (parse_file fs filename st).2 = inr [p] →
  to_pred p +:+ "." = squeeze s.
Proof.
  intros Hst Hfile. rewrite (reachable_outcome st) by done.
  intros (s' & Hfile' & _ & _ & Hs)%parse_file_fresh_inv.
  rewrite Hfile in Hfile'. injection Hfile' as <-. rewrite Hs.
  unfold document_text, sentence_text. by rewrite StrFacts.app_nil_r.
Qed.

Lemma to_pred_round_trip_witness :
  reachable module_init
  ∧ spaced_fs !! ["track.pl"] = Some spaced_text
  ∧ (parse_file spaced_fs ["track.pl"] module_init).2
    = inr [mkPredicate "track" ["1"; "2.0"; "abc"]]
  ∧ to_pred (mkPredicate "track" ["1"; "2.0"; "abc"]) +:+ "." = squeeze spaced_text.
Proof.
  split; [apply reachable_init|]. split; [reflexivity|].
  split; [vm_compute; reflexivity|].
  apply (to_pred_round_trip module_init spaced_fs ["track.pl"] spaced_text).
  - apply reachable_init.
  - reflexivity.
  - vm_compute. reflexivity.
Defined.

(** the other way round: the text [to_pred] writes, with its period, is
    parsed back to the predicate *)
Lemma parse_to_pred (st : module_state) (fs : filesystem) (filename : Path)
    (p : Predicate) :
  reachable st →
  well_formed p = true →
  fs !! filename = Some (to_pred p +:+ ".") →
  (parse_file fs filename st).2 = inr [p].
Proof.
  intros Hst Hp Hfile. rewrite (reachable_outcome st) by done.
  apply Canonical.parse_file_fresh_document.
  - by constructor.
  - cbn [document_text]. by rewrite StrFacts.app_nil_r.
Qed.

(** ** The shape of the arguments *)

Lemma well_formed_args (p : Predicate) :
  well_formed p = true →
  args p ≠ [] ∧ Forall (λ a, argument_token a = true) (args p).
Proof.
  unfold well_formed. intros [[_ Hne]%andb_prop Hall]%andb_prop. split.
  - by destruct (args p).
  - apply Forall_forall. intros a Ha%list_elem_of_In.
    by apply (proj1 (forallb_forall _ _) Hall).
Qed.

(** C3 (as the code has it): every predicate of an accepted text has at
    least one argument, and every argument is a non-empty run of digits and
    dots, or a non-empty run of letters. *)
Theorem parsed_arguments_shape (st : module_state) (fs : filesystem)
    (filename : Path) (results : list Predicate) :
  reachable st →
  (parse_file fs filename st).2 = inr results →
  Forall (λ p, 1 ≤ length (args p)
               ∧ Forall (λ a, word_over (nums +:+ ".") a = true
                              ∨ word_over alphas a = true) (args p))
         results.
Proof.
  intros Hst. rewrite (reachable_outcome st) by done.
  intros (text & _ & _ & Hwf & _)%parse_file_fresh_inv.
  eapply Forall_impl; [exact Hwf|]. intros p [Hne Hargs]%well_formed_args. split.
  - destruct (args p); [done|]. cbn. lia.
  - eapply Forall_impl; [exact Hargs|]. intros a. unfold argument_token.
    by intros ?%orb_prop.
Qed.

Lemma parsed_arguments_shape_witness :
  reachable module_init
  ∧ (parse_file dots_fs (joinpath even_dir "pos.pl") module_init).2
    = inr [mkPredicate "p" [".."]; mkPredicate "q" ["1.2.3"]]
  ∧ Forall (λ p, 1 ≤ length (args p)
                 ∧ Forall (λ a, word_over (nums +:+ ".") a = true
                                ∨ word_over alphas a = true) (args p))
           [mkPredicate "p" [".."]; mkPredicate "q" ["1.2.3"]].
Proof.
  split; [apply reachable_init|]. split; [vm_compute; reflexivity|].
  apply (parsed_arguments_shape module_init dots_fs (joinpath even_dir "pos.pl")).
  - apply reachable_init.
  - vm_compute. reflexivity.
Defined.

(** The text [p(..). q(1.2.3).] is accepted, and its arguments are neither
    numeric literals with at most one decimal point nor alphabetic. *)
Lemma dots_arguments_accepted :
  (parse_file dots_fs (joinpath even_dir "pos.pl") module_init).2
  = inr [mkPredicate "p" [".."]; mkPredicate "q" ["1.2.3"]]
  ∧ numeric_literal ".." = false ∧ alphabetic ".." = false
  ∧ numeric_literal "1.2.3" = false ∧ alphabetic "1.2.3" = false.
Proof. vm_compute. done. Qed.

(** the shapes the specification names are among those the grammar accepts *)
Lemma numeric_literal_word (w : string) :
  numeric_literal w = true → word_over (nums +:+ ".") w = true.
Proof.
  unfold numeric_literal. intros [[Hall Hd%bool_decide_eq_true]%andb_prop _]%andb_prop.
  apply word_over_spec. split; [|done]. intros ->. cbn in Hd. lia.
Qed.

(** ** No positive example *)

Lemma document_text_cons_ne (p : Predicate) (ps : list Predicate) :
  document_text (p :: ps) ≠ "".
Proof.
  cbn [document_text]. unfold sentence_text, to_pred.
  rewrite !StrFacts.app_assoc.
  intros [_ [H _]%app_eq_nil]%app_eq_nil. done.
Qed.

Lemma blank_file_fails (fs : filesystem) (filename : Path) (text : string) :
  fs !! filename = Some text → squeeze text = "" →
  parse_file_fresh fs filename = inl ParseException.
Proof.
  intros Hfile Hblank. destruct (parse_file_fresh fs filename) as [e|results] eqn:E.
  - apply parse_file_fresh_error in E as [[E _]|[_ ->]]; [|done].
    by rewrite Hfile in E.
  - apply parse_file_fresh_inv in E as (text' & Hfile' & Hne & _ & Hs).
    rewrite Hfile in Hfile'. injection Hfile' as <-.
    destruct results as [|p ps]; [done|].
    rewrite Hblank in Hs. symmetry in Hs. by apply document_text_cons_ne in Hs.
Qed.

(** C4 (as the code has it): a file that parses has at least one sentence, so
    there is no parsed positive file without facts; a positive file with no
    fact in it (empty or blank) is rejected by the parser, and the assembly
    fails with that [ParseException] when the background file is there, never
    with an [EmptyExamplesError]; an assembly that returns has parsed a first
    positive example, whose signature is the target. *)
Theorem empty_positive_examples (st : module_state) (fs : filesystem)
    (example_path : Path) :
  reachable st →
  (∀ filename results,
     (parse_file fs filename st).2 = inr results → results ≠ [])
  ∧ (setup_custom fs example_path st).2 ≠ inl EmptyExamplesError
  ∧ (∀ text,
       fs !! joinpath example_path "pos.pl" = Some text →
       squeeze text = "" →
       is_Some (fs !! joinpath example_path "bk.pl") →
       (setup_custom fs example_path st).2 = inl ParseException)
  ∧ (∀ ilp pt,
       (setup_custom fs example_path st).2 = inr (ilp, pt) →
       ∃ first others,
         (parse_file fs (joinpath example_path "pos.pl") st).2 = inr (first :: others)
         ∧ target (language_model ilp) = str2pred (to_pred_str first)).
Proof.
  intros Hst. pose proof (reachable_prolog_inv st Hst) as Hinv. split_and!.
  - intros filename results. rewrite (reachable_outcome st) by done.
    by intros (text & _ & Hne & _)%parse_file_fresh_inv.
  - rewrite setup_custom_outcome by done.
    destruct (parse_file_fresh fs (joinpath example_path "bk.pl")) as [e|bk] eqn:E1.
    { by apply parse_file_fresh_error in E1 as [[_ ->]|[_ ->]]. }
    destruct (parse_file_fresh fs (joinpath example_path "pos.pl")) as [e|pos] eqn:E2.
    { by apply parse_file_fresh_error in E2 as [[_ ->]|[_ ->]]. }
    destruct (parse_file_fresh fs (joinpath example_path "neg.pl")) as [e|neg] eqn:E3.
    { by apply parse_file_fresh_error in E3 as [[_ ->]|[_ ->]]. }
    by destruct pos.
  - intros text Hpos Hblank [bktext Hbk]. rewrite setup_custom_outcome by done.
    destruct (parse_file_fresh fs (joinpath example_path "bk.pl")) as [e|bk] eqn:E1.
    { apply parse_file_fresh_error in E1 as [[E1 _]|[_ ->]]; [|done].
      by rewrite Hbk in E1. }
    by rewrite (blank_file_fails fs _ text).
  - intros ilp pt. rewrite setup_custom_outcome by done.
    rewrite (reachable_outcome st) by done.
    destruct (parse_file_fresh fs (joinpath example_path "bk.pl")) as [e|bk]; [done|].
    destruct (parse_file_fresh fs (joinpath example_path "pos.pl")) as [e|pos]; [done|].
    destruct (parse_file_fresh fs (joinpath example_path "neg.pl")) as [e|neg]; [done|].
    destruct pos as [|first others]; [done|]. intros [= <- <-].
    by exists first, others.
Qed.

Lemma empty_positive_examples_witness :
  reachable module_init
  ∧ empty_pos_fs !! joinpath even_dir "pos.pl" = Some ""
  ∧ squeeze "" = ""
  ∧ is_Some (empty_pos_fs !! joinpath even_dir "bk.pl")
  ∧ (setup_custom empty_pos_fs even_dir module_init).2 = inl ParseException.
Proof.
  split; [apply reachable_init|]. split; [reflexivity|]. split; [reflexivity|].
  split; [by eexists|].
  destruct (empty_positive_examples module_init empty_pos_fs even_dir reachable_init)
    as (_ & _ & H & _).
  apply (H ""); [reflexivity|reflexivity|by eexists].
Defined.

(** With an empty [pos.pl] the assembly fails with the parser's error, not
    with an [EmptyExamplesError]. *)
Lemma empty_pos_raises_ParseException :
  empty_pos_fs !! joinpath even_dir "pos.pl" = Some ""
  ∧ (setup_custom empty_pos_fs even_dir module_init).2 = inl ParseException
  ∧ (setup_custom empty_pos_fs even_dir module_init).2 ≠ inl EmptyExamplesError.
Proof. split; [reflexivity|]. split; [vm_compute; reflexivity|]. vm_compute. done. Qed.

(** ** The assembled problem *)

Lemma setup_custom_inv st fs example_path ilp pt :
  reachable st →
  (setup_custom fs example_path st).2 = inr (ilp, pt) →
  ∃ bk first others negative_exs,
    parse_file_fresh fs (joinpath example_path "bk.pl") = inr bk
    ∧ parse_file_fresh fs (joinpath example_path "pos.pl") = inr (first :: others)
    ∧ parse_file_fresh fs (joinpath example_path "neg.pl") = inr negative_exs
    ∧ ilp = mkILP (Py.name example_path)
              (mkLanguageModel (str2pred (to_pred_str first))
                 (map str2pred (get_pred_str_list bk))
                 (map Constant
                    (elements (list_to_set (get_all_unique_args bk
                                            ++ get_all_unique_args (first :: others)
                                            ++ get_all_unique_args negative_exs)
                               : gset string))))
              (map (λ predicate, str2ground_atom (to_pred predicate)) bk)
              (map (λ predicate, str2ground_atom (to_pred predicate)) (first :: others))
              (map (λ predicate, str2ground_atom (to_pred predicate)) negative_exs)
    ∧ pt = mkProgramTemplate [str2pred "pred/2"]
             (<[str2pred "pred/2" := (mkRuleTemplate 1 false, None)]>
                (<[str2pred (to_pred_str first) :=
                     (mkRuleTemplate 0 false, Some (mkRuleTemplate 1 true))]> ∅))
             6.
Proof.
  intros Hst%reachable_prolog_inv. rewrite setup_custom_outcome by done.
  destruct (parse_file_fresh fs (joinpath example_path "bk.pl")) as [e|bk]; [done|].
  destruct (parse_file_fresh fs (joinpath example_path "pos.pl")) as [e|pos]; [done|].
  destruct (parse_file_fresh fs (joinpath example_path "neg.pl")) as [e|neg]; [done|].
  destruct pos as [|first others]; [done|]. intros [= <- <-].
  by exists bk, first, others, neg.
Qed.

(** C1 (as the code has it): for [pos.pl = "even(0).\neven(2)."],
    [bk.pl = "zero(0).\nsucc(0,1)."] and [neg.pl = "even(1)."] the assembly
    returns the target [even/1], the extensional signatures [zero/1] and
    [succ/2], the constants 0, 1 and 2 (each once), and the ground atoms of
    the three files. *)
Theorem even_problem_assembled (st : module_state) (fs : filesystem)
    (example_path : Path) :
  reachable st →
  fs !! joinpath example_path "pos.pl" = Some ("even(0)." +:+ nl +:+ "even(2).") →
  fs !! joinpath example_path "bk.pl" = Some ("zero(0)." +:+ nl +:+ "succ(0,1).") →
  fs !! joinpath example_path "neg.pl" = Some "even(1)." →
  ∃ ilp pt,
    (setup_custom fs example_path st).2 = inr (ilp, pt)
    ∧ target (language_model ilp) = "even/1"
    ∧ extensional (language_model ilp) = ["zero/1"; "succ/2"]
    ∧ NoDup (constants (language_model ilp))
    ∧ (list_to_set (constants (language_model ilp)) : gset string)
      = {[ "0"; "1"; "2" ]}
    ∧ positive ilp = ["even(0)"; "even(2)"]
    ∧ negative ilp = ["even(1)"]
    ∧ background ilp = ["zero(0)"; "succ(0,1)"].
Proof.
  intros Hst%reachable_prolog_inv Hpos Hbk Hneg.
  rewrite setup_custom_outcome by done.
  rewrite !parse_file_fresh_snd, Hpos, Hbk, Hneg.
  eexists _, _. split; [vm_compute; reflexivity|].
  split_and!; try (vm_compute; reflexivity).
  apply (bool_decide_unpack _). vm_compute. exact I.
Qed.

Lemma even_problem_assembled_witness :
  reachable module_init
  ∧ even_fs !! joinpath even_dir "pos.pl" = Some ("even(0)." +:+ nl +:+ "even(2).")
  ∧ even_fs !! joinpath even_dir "bk.pl" = Some ("zero(0)." +:+ nl +:+ "succ(0,1).")
  ∧ even_fs !! joinpath even_dir "neg.pl" = Some "even(1)."
  ∧ ∃ ilp pt,
      (setup_custom even_fs even_dir module_init).2 = inr (ilp, pt)
      ∧ target (language_model ilp) = "even/1"
      ∧ extensional (language_model ilp) = ["zero/1"; "succ/2"]
      ∧ NoDup (constants (language_model ilp))
      ∧ (list_to_set (constants (language_model ilp)) : gset string)
        = {[ "0"; "1"; "2" ]}
      ∧ positive ilp = ["even(0)"; "even(2)"]
      ∧ negative ilp = ["even(1)"]
      ∧ background ilp = ["zero(0)"; "succ(0,1)"].
Proof.
  split; [apply reachable_init|]. do 3 (split; [reflexivity|]).
  apply (even_problem_assembled module_init even_fs even_dir).
  - apply reachable_init.
  - reflexivity.
  - reflexivity.
  - reflexivity.
Defined.

(** On these files the constant pool holds 2, the argument of [even(2)]: it
    is not the set of 0 and 1. *)
Lemma even_constants_include_2 :
  ∃ ilp pt,
    (setup_custom even_fs even_dir module_init).2 = inr (ilp, pt)
    ∧ "2" ∈ constants (language_model ilp)
    ∧ (list_to_set (constants (language_model ilp)) : gset string) ≠ {[ "0"; "1" ]}.
Proof.
  eexists _, _. split; [vm_compute; reflexivity|]. split.
  - vm_compute. apply list_elem_of_In. cbn. tauto.
  - vm_compute. discriminate.
Qed.

(** ** The extensional signatures *)

(** What [setup_custom] computes for the extensional signatures: the
    signatures of the background predicates in the order of the file, one for
    each fact, with no duplicate removed. *)
Theorem extensional_signatures (st : module_state) (fs : filesystem)
    (example_path : Path) (ilp : ILP) (pt : ProgramTemplate) :
  reachable st →
  (setup_custom fs example_path st).2 = inr (ilp, pt) →
  ∃ bk,
    (parse_file fs (joinpath example_path "bk.pl") st).2 = inr bk
    ∧ extensional (language_model ilp) = map (λ p, str2pred (to_pred_str p)) bk
    ∧ length (extensional (language_model ilp)) = length bk.
Proof.
  intros Hst H. rewrite (reachable_outcome st) by done.
  apply setup_custom_inv in H
    as (bk & first & others & neg & Hbk & _ & _ & -> & _); [|done].
  exists bk. split; [done|]. cbn [language_model extensional].
  unfold get_pred_str_list. rewrite map_map. split; [done|]. by rewrite length_map.
Qed.

Lemma extensional_signatures_witness :
  reachable module_init
  ∧ (∃ ilp pt, (setup_custom succ_fs even_dir module_init).2 = inr (ilp, pt)
      ∧ ∃ bk,
          (parse_file succ_fs (joinpath even_dir "bk.pl") module_init).2 = inr bk
          ∧ extensional (language_model ilp) = map (λ p, str2pred (to_pred_str p)) bk
          ∧ length (extensional (language_model ilp)) = length bk).
Proof.
  split; [apply reachable_init|].
  eexists _, _. split; [vm_compute; reflexivity|].
  eapply (extensional_signatures module_init succ_fs even_dir).
  - apply reachable_init.
  - vm_compute. reflexivity.
Defined.

(** C2: the code does not do what the claim says.  For a background file with
    the two facts [succ(0,1).] and [succ(1,2).], [setup_custom] returns the
    extensional signatures [succ/2; succ/2]: the signature occurs twice, where
    the deduplicated sequence in first-seen order has it once (as
    [setup_even] and [setup_predecessor] list each extensional predicate
    once). *)
Lemma extensional_keeps_duplicates :
  ∃ ilp pt,
    (setup_custom succ_fs even_dir module_init).2 = inr (ilp, pt)
    ∧ extensional (language_model ilp) = ["succ/2"; "succ/2"]
    ∧ dedup_first_seen [] ["succ/2"; "succ/2"] = ["succ/2"]
    ∧ ¬ NoDup (extensional (language_model ilp)).
Proof.
  eexists _, _. split; [vm_compute; reflexivity|].
  split; [vm_compute; reflexivity|]. split; [vm_compute; reflexivity|].
  cbn [language_model extensional]. intros H%NoDup_cons_1_1. apply H. by left.
Qed.

(** ** The program template *)

(** C9 (as the code has it): an assembled problem comes with the auxiliary
    predicate [pred/2] alone and six forward-chaining steps; when the target
    is not [pred/2] itself, the rule slots are those of the target,
    (slot 0, not existential) and (slot 1, existential), and those of
    [pred/2], (slot 1, not existential) and none, and no others. *)
Theorem program_template_shape (st : module_state) (fs : filesystem)
    (example_path : Path) (ilp : ILP) (pt : ProgramTemplate) :
  reachable st →
  (setup_custom fs example_path st).2 = inr (ilp, pt) →
  auxiliary_predicates pt = [str2pred "pred/2"]
  ∧ forward_chaining_steps pt = 6
  ∧ (target (language_model ilp) ≠ str2pred "pred/2" →
     rule_slots pt !! target (language_model ilp)
     = Some (mkRuleTemplate 0 false, Some (mkRuleTemplate 1 true))
     ∧ rule_slots pt !! str2pred "pred/2" = Some (mkRuleTemplate 1 false, None)
     ∧ dom (rule_slots pt)
       = ({[ target (language_model ilp); str2pred "pred/2" ]} : gset Signature)).
Proof.
  intros Hst H.
  apply setup_custom_inv in H
    as (bk & first & others & neg & _ & _ & _ & -> & ->); [|done].
  cbn [auxiliary_predicates forward_chaining_steps rule_slots language_model target].
  split_and!; [done..|]. intros Hne. split_and!.
  - rewrite lookup_insert_ne by done. by rewrite lookup_insert_eq.
  - by rewrite lookup_insert_eq.
  - rewrite !dom_insert_L, dom_empty_L, (right_id_L ∅ (∪)). apply (comm_L (∪)).
Qed.

Lemma program_template_shape_witness :
  reachable module_init
  ∧ ∃ ilp pt,
      (setup_custom even_fs even_dir module_init).2 = inr (ilp, pt)
      ∧ auxiliary_predicates pt = [str2pred "pred/2"]
      ∧ forward_chaining_steps pt = 6
      ∧ (target (language_model ilp) ≠ str2pred "pred/2" →
         rule_slots pt !! target (language_model ilp)
         = Some (mkRuleTemplate 0 false, Some (mkRuleTemplate 1 true))
         ∧ rule_slots pt !! str2pred "pred/2" = Some (mkRuleTemplate 1 false, None)
         ∧ dom (rule_slots pt)
           = ({[ target (language_model ilp); str2pred "pred/2" ]} : gset Signature)).
Proof.
  split; [apply reachable_init|].
  eexists _, _. split; [vm_compute; reflexivity|].
  eapply (program_template_shape module_init even_fs even_dir).
  - apply reachable_init.
  - vm_compute. reflexivity.
Defined.

(** When the positive examples are facts of [pred/2], the target's rule
    slots are (slot 1, not existential) and none: the entry of the auxiliary
    predicate has replaced the target's. *)
Lemma target_pred_2_slots :
  ∃ ilp pt,
    (setup_custom pred_fs even_dir module_init).2 = inr (ilp, pt)
    ∧ target (language_model ilp) = "pred/2"
    ∧ rule_slots pt !! target (language_model ilp)
      = Some (mkRuleTemplate 1 false, None)
    ∧ rule_slots pt !! target (language_model ilp)
      ≠ Some (mkRuleTemplate 0 false, Some (mkRuleTemplate 1 true)).
Proof.
  eexists _, _. split; [vm_compute; reflexivity|].
  split; [vm_compute; reflexivity|]. split; [vm_compute; reflexivity|].
  vm_compute. discriminate.
Qed.

(** ** Signatures *)

Lemma digit_of_pretty_N_char (d : N) :
  (d < 10)%N → digit_of (pretty_N_char d) = Some d.
Proof.
  intros Hd.
  assert (d = 0 ∨ d = 1 ∨ d = 2 ∨ d = 3 ∨ d = 4 ∨ d = 5 ∨ d = 6 ∨ d = 7
          ∨ d = 8 ∨ d = 9)%N as H by lia.
  destruct_or!; subst; reflexivity.
Qed.

(** the digits [pretty_N_go] writes in front of [s] are those of [x] *)
Lemma digits_value_pretty_N_go (x : N) :
  ∃ k : N, ∀ acc s,
    digits_value acc (pretty_N_go x s) = digits_value (acc * k + x) s.
Proof.
  induction (N.lt_wf_0 x) as [x _ IH].
  destruct (decide (x = 0)%N) as [->|Hx].
  - exists 1%N. intros acc s. rewrite pretty_N_go_0. f_equal. lia.
  - destruct (IH (x `div` 10)%N) as [k Hk].
    { apply N.div_lt; lia. }
    exists (10 * k)%N. intros acc s. rewrite pretty_N_go_step by lia.
    rewrite Hk. cbn [digits_value].
    rewrite digit_of_pretty_N_char by (apply N.mod_lt; lia). cbn.
    f_equal. pose proof (N.div_mod x 10). lia.
Qed.

Lemma int_of_str_pretty (n : nat) : int_of_str (pretty n) = Some n.
Proof.
  unfold pretty, pretty_nat, pretty, pretty_N.
  destruct (decide (N.of_nat n = 0)%N) as [Hn|Hn].
  - assert (n = 0) as -> by lia. reflexivity.
  - destruct (digits_value_pretty_N_go (N.of_nat n)) as [k Hk].
    specialize (Hk 0%N ""). unfold int_of_str.
    destruct (pretty_N_go (N.of_nat n) "") as [|c s] eqn:E.
    + cbn in Hk. injection Hk as Hk. lia.
    + rewrite Hk. cbn. f_equal. lia.
Qed.

Lemma split_slash_name (n d : string) :
  all_in alphas n = true → split_slash (n +:+ "/" +:+ d) = Some (n, d).
Proof.
  induction n as [|c n IH]; [done|]. cbn [all_in].
  intros [Hc Hn]%andb_prop. rewrite app_cons. cbn [split_slash].
  destruct (decide (c = "/"%char)) as [->|_]; [by vm_compute in Hc|].
  by rewrite IH.
Qed.

Lemma read_signature_to_pred_str (p : Predicate) :
  all_in alphas (id p) = true →
  read_signature (to_pred_str p) = Some (id p, length (args p)).
Proof.
  intros Hid. unfold read_signature, to_pred_str.
  rewrite split_slash_name by done. cbn. by rewrite int_of_str_pretty.
Qed.

(** C7: for every parsed predicate, [to_pred_str] is the name, a slash and
    the number of arguments in decimal; read back at the slash, it gives
    that name and that number. *)
Theorem to_pred_str_format (st : module_state) (fs : filesystem)
    (filename : Path) (results : list Predicate) (p : Predicate) :
  reachable st →
  (parse_file fs filename st).2 = inr results →
  p ∈ results →
  to_pred_str p = id p +:+ "/" +:+ pretty (length (args p))
  ∧ read_signature (to_pred_str p) = Some (id p, length (args p)).
Proof.
  intros Hst. rewrite (reachable_outcome st) by done.
  intros (text & _ & _ & Hwf & _)%parse_file_fresh_inv Hp. split; [done|].
  apply read_signature_to_pred_str.
  pose proof (proj1 (Forall_forall _ _) Hwf p Hp) as H.
  unfold well_formed in H. apply andb_prop in H as [[H _]%andb_prop _].
  by apply word_over_spec in H as [_ H].
Qed.

Lemma to_pred_str_format_witness :
  reachable module_init
  ∧ (parse_file even_fs (joinpath even_dir "bk.pl") module_init).2
    = inr [mkPredicate "zero" ["0"]; mkPredicate "succ" ["0"; "1"]]
  ∧ mkPredicate "succ" ["0"; "1"]
    ∈ [mkPredicate "zero" ["0"]; mkPredicate "succ" ["0"; "1"]]
  ∧ to_pred_str (mkPredicate "succ" ["0"; "1"]) = "succ" +:+ "/" +:+ pretty 2
  ∧ read_signature (to_pred_str (mkPredicate "succ" ["0"; "1"])) = Some ("succ", 2).
Proof.
  split; [apply reachable_init|]. split; [vm_compute; reflexivity|].
  split; [apply list_elem_of_In; cbn; tauto|].
  apply (to_pred_str_format module_init even_fs (joinpath even_dir "bk.pl")
           [mkPredicate "zero" ["0"]; mkPredicate "succ" ["0"; "1"]]).
  - apply reachable_init.
  - vm_compute. reflexivity.
  - apply list_elem_of_In. cbn. tauto.
Defined.

Example to_pred_str_succ : to_pred_str (mkPredicate "succ" ["0"; "1"]) = "succ/2".
Proof. vm_compute. reflexivity. Qed.

End Claims.

(** * Further properties *)

Module Properties.
Import Str StrFacts PyParsing Py Parser Lernd Experiments.
Import Shape Run Examples ParseFacts RunFacts Canonical Builtin Written.

(** ** The parser *)

Lemma well_formed_name (p : Predicate) :
  well_formed p = true → word_over alphas (id p) = true.
Proof. unfold well_formed. by intros [[H _]%andb_prop _]%andb_prop. Qed.

(** X1: Every predicate [parse_file] returns has a name made of letters, at least
    one. *)
Theorem parsed_names_alphabetic (st : module_state) (fs : filesystem)
    (filename : Path) (results : list Predicate) :
  reachable st →
  (parse_file fs filename st).2 = inr results →
  Forall (λ p, id p ≠ "" ∧ all_in alphas (id p) = true) results.
Proof.
  intros Hst. rewrite (reachable_outcome st) by done.
  intros (text & _ & _ & Hwf & _)%parse_file_fresh_inv.
  eapply Forall_impl; [exact Hwf|]. intros p Hp%well_formed_name.
  by apply word_over_spec.
Qed.

Lemma parsed_names_alphabetic_witness :
  reachable module_init
  ∧ (parse_file spaced_fs ["track.pl"] module_init).2
    = inr [mkPredicate "track" ["1"; "2.0"; "abc"]]
  ∧ Forall (λ p, id p ≠ "" ∧ all_in alphas (id p) = true)
           [mkPredicate "track" ["1"; "2.0"; "abc"]].
Proof.
  split; [apply reachable_init|]. split; [vm_compute; reflexivity|].
  apply (parsed_names_alphabetic module_init spaced_fs ["track.pl"]).
  - apply reachable_init.
  - vm_compute. reflexivity.
Defined.

Lemma mem_remove cs c s :
  mem c s = true → mem c cs = false → mem c (remove cs s) = true.
Proof.
  intros Hs Hc. induction s as [|d s IH]; [done|]. cbn [mem remove] in *.
  destruct (decide (c = d)) as [<-|Hcd].
  - rewrite Hc. cbn [mem]. by rewrite decide_True.
  - destruct (mem d cs); [by apply IH|]. cbn [mem]. rewrite decide_False by done.
    by apply IH.
Qed.

Lemma all_in_mem cs c s : all_in cs s = true → mem c s = true → mem c cs = true.
Proof.
  induction s as [|d s IH]; [done|]. cbn [all_in mem].
  intros [Hd Hs]%andb_prop. destruct (decide (c = d)) as [->|_]; [done|]. by apply IH.
Qed.

(** X2: A file with a character that is neither a letter, a digit, a period, a
    comma, a parenthesis nor white space is rejected. *)
Theorem foreign_character_rejected (st : module_state) (fs : filesystem)
    (filename : Path) (text : string) (c : ascii) :
  reachable st →
  fs !! filename = Some text →
  mem c text = true →
  mem c sentence_chars = false →
  mem c DEFAULT_WHITE_CHARS = false →
  (parse_file fs filename st).2 = inl ParseException.
Proof.
  intros Hst Hfile Hc Hforeign Hwhite. rewrite (reachable_outcome st) by done.
  destruct (parse_file_fresh fs filename) as [e|results] eqn:E.
  - apply parse_file_fresh_error in E as [[E _]|[_ ->]]; [|done].
    by rewrite Hfile in E.
  - apply parse_file_fresh_inv in E as (text' & Hfile' & _ & Hwf & Hs).
    rewrite Hfile in Hfile'. injection Hfile' as <-.
    pose proof (document_text_chars results Hwf) as Hchars. rewrite <-Hs in Hchars.
    pose proof (mem_remove DEFAULT_WHITE_CHARS c text Hc Hwhite) as Hin.
    pose proof (all_in_mem _ _ _ Hchars Hin) as H. by rewrite Hforeign in H.
Qed.

Lemma foreign_character_rejected_witness :
  reachable module_init
  ∧ ({[ ["neg.pl"] := "temp(-1)." ]} : filesystem) !! ["neg.pl"] = Some "temp(-1)."
  ∧ mem "-" "temp(-1)." = true
  ∧ mem "-" sentence_chars = false
  ∧ mem "-" DEFAULT_WHITE_CHARS = false
  ∧ (parse_file {[ ["neg.pl"] := "temp(-1)." ]} ["neg.pl"] module_init).2
    = inl ParseException.
Proof.
  split; [apply reachable_init|]. do 4 (split; [reflexivity|]).
  apply (foreign_character_rejected module_init _ ["neg.pl"] "temp(-1)." "-").
  - apply reachable_init.
  - reflexivity.
  - reflexivity.
  - reflexivity.
  - reflexivity.
Defined.

(** the sentences written one after the other determine the predicates *)
Lemma document_text_inj (ps qs : list Predicate) :
  Forall (λ p, well_formed p = true) ps →
  Forall (λ p, well_formed p = true) qs →
  document_text ps = document_text qs → ps = qs.
Proof.
  intros Hps Hqs Heq. destruct ps as [|p ps], qs as [|q qs]; [done| | |].
  - symmetry in Heq. by apply Claims.document_text_cons_ne in Heq.
  - by apply Claims.document_text_cons_ne in Heq.
  - pose proof (parse_document_here p ps Hps) as H1.
    pose proof (parse_document_here q qs Hqs) as H2.
    rewrite Heq, H2 in H1.
    assert (map group_of (q :: qs) = map group_of (p :: ps)) as H by congruence.
    apply (f_equal (λ l, predicates (l, []))) in H.
    by rewrite !predicates_groups in H.
Qed.

(** X3: Two files that are both accepted and differ in their white space only
    give the same predicates. *)
Theorem parse_white_space_insensitive (st st' : module_state)
    (fs fs' : filesystem) (filename filename' : Path) (text text' : string)
    (results results' : list Predicate) :
  reachable st → reachable st' →
  fs !! filename = Some text →
  fs' !! filename' = Some text' →
  squeeze text = squeeze text' →
  (parse_file fs filename st).2 = inr results →
  (parse_file fs' filename' st').2 = inr results' →
  results = results'.
Proof.
  intros Hst Hst' Hfile Hfile' Hsq.
  rewrite (reachable_outcome st), (reachable_outcome st') by done.
  intros (t & Ht & _ & Hwf & Hs)%parse_file_fresh_inv
         (t' & Ht' & _ & Hwf' & Hs')%parse_file_fresh_inv.
  rewrite Hfile in Ht. injection Ht as <-.
  rewrite Hfile' in Ht'. injection Ht' as <-.
  apply document_text_inj; [done..|]. by rewrite <-Hs, <-Hs'.
Qed.

Lemma parse_white_space_insensitive_witness :
  reachable module_init ∧ reachable module_init
  ∧ spaced_fs !! ["track.pl"] = Some spaced_text
  ∧ ({[ ["t.pl"] := "track(1,2.0,abc)." ]} : filesystem) !! ["t.pl"]
    = Some "track(1,2.0,abc)."
  ∧ squeeze spaced_text = squeeze "track(1,2.0,abc)."
  ∧ (parse_file spaced_fs ["track.pl"] module_init).2
    = inr [mkPredicate "track" ["1"; "2.0"; "abc"]]
  ∧ (parse_file {[ ["t.pl"] := "track(1,2.0,abc)." ]} ["t.pl"] module_init).2
    = inr [mkPredicate "track" ["1"; "2.0"; "abc"]]
  ∧ [mkPredicate "track" ["1"; "2.0"; "abc"]] = [mkPredicate "track" ["1"; "2.0"; "abc"]].
Proof.
  do 2 (split; [apply reachable_init|]). do 3 (split; [reflexivity|]).
  do 2 (split; [vm_compute; reflexivity|]).
  apply (parse_white_space_insensitive module_init module_init spaced_fs
           {[ ["t.pl"] := "track(1,2.0,abc)." ]} ["track.pl"] ["t.pl"]
           spaced_text "track(1,2.0,abc).").
  - apply reachable_init.
  - apply reachable_init.
  - reflexivity.
  - reflexivity.
  - reflexivity.
  - vm_compute. reflexivity.
  - vm_compute. reflexivity.
Defined.

(** ** Writing and parsing *)

Lemma blank_white sep : blank sep = true → all_in DEFAULT_WHITE_CHARS sep = true.
Proof.
  apply all_in_weaken. intros c.
  destruct c as [[] [] [] [] [] [] [] []]; vm_compute; done.
Qed.

Lemma blank_no_tab sep : blank sep = true → mem "009" sep = false.
Proof. by apply all_in_no_tab. Qed.

Lemma preParse_white_app sep s :
  all_in DEFAULT_WHITE_CHARS sep = true → preParse (sep +:+ s) = preParse s.
Proof.
  induction sep as [|c sep IH]; [done|]. cbn [all_in].
  intros [Hc Hsep]%andb_prop. rewrite app_cons. cbn [preParse]. rewrite Hc.
  by apply IH.
Qed.

Lemma parse_skip_white e sep s :
  all_in DEFAULT_WHITE_CHARS sep = true → _parse e (sep +:+ s) = _parse e s.
Proof.
  intros Hsep. rewrite <-(parse_preParse e (sep +:+ s)), <-(parse_preParse e s).
  by rewrite preParse_white_app.
Qed.

Lemma mem_app c (a b : string) : mem c (a +:+ b) = mem c a || mem c b.
Proof.
  induction a as [|x a IH]; [done|]. rewrite app_cons. cbn [mem].
  by destruct (decide (c = x)).
Qed.

Lemma written_no_tab sep ps :
  blank sep = true → Forall (λ p, well_formed p = true) ps →
  mem "009" (written sep ps) = false.
Proof.
  intros Hsep. induction 1 as [|p ps Hp _ IH]; [done|]. cbn [written].
  change (to_pred p +:+ ".") with (sentence_text p).
  rewrite (mem_app _ (sentence_text p)), (mem_app _ sep), IH, (blank_no_tab sep Hsep).
  by rewrite (all_in_no_tab sentence_chars _ eq_refl (sentence_text_chars p Hp)).
Qed.

Lemma length_written sep ps : length ps ≤ String.length (sep +:+ written sep ps).
Proof.
  induction ps as [|p ps IH]; cbn [written length]; [lia|].
  rewrite !length_app in *. cbn [String.length]. lia.
Qed.

Lemma repeat_written sep ps fuel tokens :
  all_in DEFAULT_WHITE_CHARS sep = true →
  Forall (λ p, well_formed p = true) ps → length ps ≤ fuel →
  repeat_parse (_parse (Group sentence_flat)) fuel (sep +:+ written sep ps) tokens
  = (sep +:+ "", foldl (λ acc p, iadd acc ([group_of p], [])) tokens ps).
Proof.
  intros Hsep Hps. revert fuel tokens.
  induction Hps as [|p ps Hp _ IH]; intros fuel tokens Hfuel.
  - cbn [written foldl]. destruct fuel as [|fuel]; [done|]. cbn [repeat_parse].
    by rewrite parse_skip_white.
  - cbn [length] in Hfuel. destruct fuel as [|fuel]; [lia|].
    cbn [written foldl repeat_parse]. rewrite parse_skip_white by done.
    change (to_pred p +:+ ".") with (sentence_text p).
    rewrite parse_Group_sentence_here by done. apply IH. lia.
Qed.

Lemma parse_written sep p ps :
  all_in DEFAULT_WHITE_CHARS sep = true →
  Forall (λ p, well_formed p = true) (p :: ps) →
  _parse (OneOrMore (Group sentence_flat)) (written sep (p :: ps))
  = Some (sep +:+ "", (map group_of (p :: ps), [])).
Proof.
  intros Hsep [Hp Hps]%Forall_cons.
  change (_parse (OneOrMore (Group sentence_flat)) (written sep (p :: ps)))
    with (OneOrMore_parseImpl (_parse (Group sentence_flat))
            (preParse (written sep (p :: ps)))).
  cbn [written]. unfold OneOrMore_parseImpl.
  change (to_pred p +:+ ".") with (sentence_text p).
  rewrite parse_preParse, parse_Group_sentence_here by done.
  cbn [mbind option_bind].
  rewrite repeat_written by (done || apply length_written).
  by rewrite (foldl_iadd_groups [group_of p] ps).
Qed.

Lemma parse_file_fresh_written fs filename sep p ps :
  blank sep = true →
  Forall (λ p, well_formed p = true) (p :: ps) →
  fs !! filename = Some (written sep (p :: ps)) →
  parse_file_fresh fs filename = inr (p :: ps).
Proof.
  intros Hsep Hps Hfile. rewrite parse_file_fresh_snd, Hfile.
  unfold expandtabs. rewrite expandtabs_from_no_tab by by apply written_no_tab.
  rewrite parse_written by (done || by apply blank_white).
  rewrite preParse_white_app by by apply blank_white. cbn [preParse].
  by rewrite predicates_groups.
Qed.

(** X4: Predicates of the shape the grammar accepts, written by [to_pred] with a
    period each and any spaces or line ends after the periods, are parsed
    back as they were, in their order. *)
Theorem written_predicates_parse_back (st : module_state) (fs : filesystem)
    (filename : Path) (sep : string) (p : Predicate) (ps : list Predicate) :
  reachable st →
  blank sep = true →
  Forall (λ p, well_formed p = true) (p :: ps) →
  fs !! filename = Some (written sep (p :: ps)) →
  (parse_file fs filename st).2 = inr (p :: ps).
Proof.
  intros Hst Hsep Hps Hfile. rewrite (reachable_outcome st) by done.
  by apply (parse_file_fresh_written fs filename sep).
Qed.

Lemma written_predicates_parse_back_witness :
  reachable module_init
  ∧ blank nl = true
  ∧ Forall (λ p, well_formed p = true) rows
  ∧ ({[ ["bk.pl"] := written nl rows ]} : filesystem) !! ["bk.pl"]
    = Some (written nl rows)
  ∧ (parse_file {[ ["bk.pl"] := written nl rows ]} ["bk.pl"] module_init).2 = inr rows.
Proof.
  split; [apply reachable_init|]. split; [reflexivity|].
  split; [repeat constructor|]. split; [reflexivity|].
  apply (written_predicates_parse_back module_init _ ["bk.pl"] nl).
  - apply reachable_init.
  - reflexivity.
  - repeat constructor.
  - reflexivity.
Defined.

(** ** The two strings of a predicate *)

(** X5: [to_pred] tells predicates apart: two predicates of the shape the grammar
    accepts with the same ground-atom string are the same predicate. *)
Theorem to_pred_injective (p q : Predicate) :
  well_formed p = true → well_formed q = true →
  to_pred p = to_pred q → p = q.
Proof.
  intros Hp Hq Heq.
  assert ([p] = [q]) as H; [|by injection H].
  apply document_text_inj; [by constructor..|].
  cbn [document_text]. unfold sentence_text. by rewrite Heq.
Qed.

Lemma to_pred_injective_witness :
  well_formed (mkPredicate "succ" ["0"; "1"]) = true
  ∧ well_formed (mkPredicate "succ" ["0"; "1"]) = true
  ∧ to_pred (mkPredicate "succ" ["0"; "1"]) = to_pred (mkPredicate "succ" ["0"; "1"])
  ∧ mkPredicate "succ" ["0"; "1"] = mkPredicate "succ" ["0"; "1"].
Proof.
  do 3 (split; [reflexivity|]).
  apply (to_pred_injective (mkPredicate "succ" ["0"; "1"])
           (mkPredicate "succ" ["0"; "1"])); reflexivity.
Defined.

(** X6: Two predicates with alphabetic names have the same signature exactly when
    they have the same name and the same number of arguments. *)
Theorem to_pred_str_eq_iff (p q : Predicate) :
  all_in alphas (id p) = true → all_in alphas (id q) = true →
  to_pred_str p = to_pred_str q ↔ id p = id q ∧ length (args p) = length (args q).
Proof.
  intros Hp Hq. split.
  - intros Heq.
    pose proof (Claims.read_signature_to_pred_str p Hp) as H1.
    pose proof (Claims.read_signature_to_pred_str q Hq) as H2.
    rewrite Heq, H2 in H1. by injection H1 as -> ->.
  - intros [Hid Hlen]. unfold to_pred_str. by rewrite Hid, Hlen.
Qed.

Lemma to_pred_str_eq_iff_witness :
  all_in alphas "succ" = true ∧ all_in alphas "succ" = true
  ∧ (to_pred_str (mkPredicate "succ" ["0"; "1"])
     = to_pred_str (mkPredicate "succ" ["1"; "2"])
     ↔ "succ" = "succ" ∧ length ["0"; "1"] = length ["1"; "2"]).
Proof.
  do 2 (split; [reflexivity|]).
  apply (to_pred_str_eq_iff (mkPredicate "succ" ["0"; "1"])
           (mkPredicate "succ" ["1"; "2"])); reflexivity.
Defined.

(** ** The constants *)

(** X7: The arguments collected from two sequences of predicates put together
    are, as a set, those of the one and those of the other; the result is
    never longer than the arguments are many. *)
Theorem get_all_unique_args_app (results results' : list Predicate) :
  (list_to_set (get_all_unique_args (results ++ results')) : gset string)
  = list_to_set (get_all_unique_args results)
    ∪ list_to_set (get_all_unique_args results')
  ∧ length (get_all_unique_args results) ≤ length (mjoin (map args results)).
Proof.
  split.
  - apply set_eq. intros a. rewrite elem_of_union, !elem_of_list_to_set.
    rewrite !Claims.elem_of_get_all_unique_args. split.
    + intros (p & [Hp|Hp]%elem_of_app & Ha); [left|right]; by exists p.
    + intros [(p & Hp & Ha)|(p & Hp & Ha)]; exists p;
        (split; [apply elem_of_app; auto|done]).
  - apply submseteq_length, NoDup_submseteq.
    + unfold get_all_unique_args. apply NoDup_elements.
    + intros a (p & Hp & Ha)%Claims.elem_of_get_all_unique_args.
      apply list_elem_of_join. exists (args p). split; [done|].
      apply list_elem_of_fmap. by exists p.
Qed.

(** ** The assembly *)

(** X8: [setup_custom] fails with the error of the first of [bk.pl], [pos.pl] and
    [neg.pl] that [parse_file] fails on, and returns a problem when it fails
    on none; it never raises [IndexError] at [positive_exs[0]]. *)
Theorem setup_custom_first_error (st : module_state) (fs : filesystem)
    (example_path : Path) :
  reachable st →
  match (parse_file fs (joinpath example_path "bk.pl") st).2,
        (parse_file fs (joinpath example_path "pos.pl") st).2,
        (parse_file fs (joinpath example_path "neg.pl") st).2 with
  | inl e, _, _ => (setup_custom fs example_path st).2 = inl e
  | inr _, inl e, _ => (setup_custom fs example_path st).2 = inl e
  | inr _, inr _, inl e => (setup_custom fs example_path st).2 = inl e
  | inr _, inr _, inr _ => ∃ r, (setup_custom fs example_path st).2 = inr r
  end
  ∧ (setup_custom fs example_path st).2 ≠ inl IndexError.
Proof.
  intros Hst. pose proof (reachable_prolog_inv st Hst) as Hinv.
  rewrite !(reachable_outcome st), setup_custom_outcome by done.
  destruct (parse_file_fresh fs (joinpath example_path "bk.pl")) as [e|bk] eqn:E1.
  { split; [done|]. by apply parse_file_fresh_error in E1 as [[_ ->]|[_ ->]]. }
  destruct (parse_file_fresh fs (joinpath example_path "pos.pl")) as [e|pos] eqn:E2.
  { split; [done|]. by apply parse_file_fresh_error in E2 as [[_ ->]|[_ ->]]. }
  destruct (parse_file_fresh fs (joinpath example_path "neg.pl")) as [e|neg] eqn:E3.
  { split; [done|]. by apply parse_file_fresh_error in E3 as [[_ ->]|[_ ->]]. }
  apply parse_file_fresh_inv in E2 as (_ & _ & Hne & _).
  destruct pos as [|first others]; [done|]. split; [by eexists|done].
Qed.

Lemma setup_custom_first_error_witness :
  reachable module_init
  ∧ (setup_custom empty_pos_fs even_dir module_init).2 = inl ParseException
  ∧ (setup_custom empty_pos_fs even_dir module_init).2 ≠ inl IndexError.
Proof.
  split; [apply reachable_init|].
  destruct (setup_custom_first_error module_init empty_pos_fs even_dir reachable_init)
    as [H1 H2].
  split; [exact H1|exact H2].
Defined.

(** X9: The constants of an assembled problem are, without repetition, the
    arguments of the facts of the three files: a token is a constant exactly
    when it is an argument of a background fact, of a positive or of a
    negative example; each is a run of digits and dots or a run of letters. *)
Theorem assembled_constants (st : module_state) (fs : filesystem)
    (example_path : Path) (ilp : ILP) (pt : ProgramTemplate) :
  reachable st →
  (setup_custom fs example_path st).2 = inr (ilp, pt) →
  ∃ bk positive_exs negative_exs,
    (parse_file fs (joinpath example_path "bk.pl") st).2 = inr bk
    ∧ (parse_file fs (joinpath example_path "pos.pl") st).2 = inr positive_exs
    ∧ (parse_file fs (joinpath example_path "neg.pl") st).2 = inr negative_exs
    ∧ NoDup (constants (language_model ilp))
    ∧ (∀ a, a ∈ constants (language_model ilp)
            ↔ ∃ p, p ∈ bk ++ positive_exs ++ negative_exs ∧ a ∈ args p)
    ∧ Forall (λ a, argument_token a = true) (constants (language_model ilp)).
Proof.
  intros Hst H. rewrite !(reachable_outcome st) by done.
  apply Claims.setup_custom_inv in H
    as (bk & first & others & neg & Hbk & Hpos & Hneg & -> & _); [|done].
  exists bk, (first :: others), neg. split_and!; [done..| | |].
  - cbn [language_model constants]. unfold Constant. rewrite map_id.
    apply NoDup_elements.
  - intros a. cbn [language_model constants]. unfold Constant. rewrite map_id.
    rewrite elem_of_elements, elem_of_list_to_set, !elem_of_app.
    rewrite !Claims.elem_of_get_all_unique_args. split.
    + intros [(p & Hp & Ha)|[(p & Hp & Ha)|(p & Hp & Ha)]]; exists p;
        (split; [rewrite !elem_of_app; auto|done]).
    + intros (p & Hp & Ha). rewrite !elem_of_app in Hp.
      destruct Hp as [Hp|[Hp|Hp]]; [left|right; left|right; right]; by exists p.
  - apply Forall_forall. intros a Ha.
    cbn [language_model constants] in Ha. unfold Constant in Ha. rewrite map_id in Ha.
    rewrite elem_of_elements, elem_of_list_to_set, !elem_of_app in Ha.
    rewrite !Claims.elem_of_get_all_unique_args in Ha.
    apply parse_file_fresh_inv in Hbk as (_ & _ & _ & Hwf1 & _).
    apply parse_file_fresh_inv in Hpos as (_ & _ & _ & Hwf2 & _).
    apply parse_file_fresh_inv in Hneg as (_ & _ & _ & Hwf3 & _).
    assert (∀ l, Forall (λ p, well_formed p = true) l →
                 (∃ p, p ∈ l ∧ a ∈ args p) → argument_token a = true) as Hl.
    { intros l Hwf (p & Hp & Hap).
      pose proof (proj1 (Forall_forall _ _) Hwf p Hp) as [_ Hargs]%Claims.well_formed_args.
      by apply (proj1 (Forall_forall _ _) Hargs). }
    destruct Ha as [Ha|[Ha|Ha]]; eauto.
Qed.

Lemma assembled_constants_witness :
  reachable module_init
  ∧ ∃ ilp pt,
      (setup_custom even_fs even_dir module_init).2 = inr (ilp, pt)
      ∧ ∃ bk positive_exs negative_exs,
          (parse_file even_fs (joinpath even_dir "bk.pl") module_init).2 = inr bk
          ∧ (parse_file even_fs (joinpath even_dir "pos.pl") module_init).2
            = inr positive_exs
          ∧ (parse_file even_fs (joinpath even_dir "neg.pl") module_init).2
            = inr negative_exs
          ∧ NoDup (constants (language_model ilp))
          ∧ (∀ a, a ∈ constants (language_model ilp)
                  ↔ ∃ p, p ∈ bk ++ positive_exs ++ negative_exs ∧ a ∈ args p)
          ∧ Forall (λ a, argument_token a = true) (constants (language_model ilp)).
Proof.
  split; [apply reachable_init|].
  eexists _, _. split; [vm_compute; reflexivity|].
  eapply (assembled_constants module_init even_fs even_dir).
  - apply reachable_init.
  - vm_compute. reflexivity.
Defined.

(** X10: A problem needs a background fact and a negative example: when [bk.pl]
    holds no fact, and when [bk.pl] and [pos.pl] are there and [neg.pl] holds
    no fact, [setup_custom] fails with [ParseException]. *)
Theorem empty_background_or_negatives (st : module_state) (fs : filesystem)
    (example_path : Path) (text : string) :
  reachable st →
  squeeze text = "" →
  (fs !! joinpath example_path "bk.pl" = Some text
   ∨ (is_Some (fs !! joinpath example_path "bk.pl")
      ∧ is_Some (fs !! joinpath example_path "pos.pl")
      ∧ fs !! joinpath example_path "neg.pl" = Some text)) →
  (setup_custom fs example_path st).2 = inl ParseException.
Proof.
  intros Hst%reachable_prolog_inv Hblank Hfiles.
  rewrite setup_custom_outcome by done.
  destruct Hfiles as [Hbk|([bkt Hbk] & [post Hpos] & Hneg)].
  - by rewrite (Claims.blank_file_fails fs _ text).
  - destruct (parse_file_fresh fs (joinpath example_path "bk.pl")) as [e|bk] eqn:E1.
    { apply parse_file_fresh_error in E1 as [[E1 _]|[_ ->]]; [|done].
      by rewrite Hbk in E1. }
    destruct (parse_file_fresh fs (joinpath example_path "pos.pl")) as [e|pos] eqn:E2.
    { apply parse_file_fresh_error in E2 as [[E2 _]|[_ ->]]; [|done].
      by rewrite Hpos in E2. }
    by rewrite (Claims.blank_file_fails fs _ text).
Qed.

Lemma empty_background_or_negatives_witness :
  reachable module_init
  ∧ squeeze nl = ""
  ∧ (problem_fs even_dir "zero(0)." "even(0)." nl !! joinpath even_dir "bk.pl"
     = Some nl
     ∨ (is_Some (problem_fs even_dir "zero(0)." "even(0)." nl
                 !! joinpath even_dir "bk.pl")
        ∧ is_Some (problem_fs even_dir "zero(0)." "even(0)." nl
                   !! joinpath even_dir "pos.pl")
        ∧ problem_fs even_dir "zero(0)." "even(0)." nl !! joinpath even_dir "neg.pl"
          = Some nl))
  ∧ (setup_custom (problem_fs even_dir "zero(0)." "even(0)." nl) even_dir
       module_init).2 = inl ParseException.
Proof.
  split; [apply reachable_init|]. split; [reflexivity|].
  assert (is_Some (problem_fs even_dir "zero(0)." "even(0)." nl
                   !! joinpath even_dir "bk.pl")
          ∧ is_Some (problem_fs even_dir "zero(0)." "even(0)." nl
                     !! joinpath even_dir "pos.pl")
          ∧ problem_fs even_dir "zero(0)." "even(0)." nl !! joinpath even_dir "neg.pl"
            = Some nl) as Hfiles.
  { split; [by eexists|]. split; [by eexists|reflexivity]. }
  split; [by right|].
  apply (empty_background_or_negatives module_init _ even_dir nl).
  - apply reachable_init.
  - reflexivity.
  - by right.
Defined.

Lemma sentence_chars_not_white c :
  mem c sentence_chars = true → mem c DEFAULT_WHITE_CHARS = false.
Proof. destruct c as [[] [] [] [] [] [] [] []]; vm_compute; done. Qed.

Lemma squeeze_to_pred (p : Predicate) : well_formed p = true → squeeze (to_pred p) = to_pred p.
Proof.
  intros Hp. pose proof (sentence_text_chars p Hp) as H.
  unfold sentence_text in H. rewrite all_in_app in H. apply andb_prop in H as [H _].
  by apply (remove_all_in sentence_chars _ _ sentence_chars_not_white).
Qed.

(** X11: The ground atoms of an assembled problem are written over its constants:
    each background axiom and each example is [to_pred] of a parsed fact,
    holds no white space however the file was laid out, and every argument of
    that fact is among the problem's constants. *)
Theorem assembled_atoms_over_constants (st : module_state) (fs : filesystem)
    (example_path : Path) (ilp : ILP) (pt : ProgramTemplate) (g : GroundAtom) :
  reachable st →
  (setup_custom fs example_path st).2 = inr (ilp, pt) →
  g ∈ background ilp ++ positive ilp ++ negative ilp →
  ∃ p, g = str2ground_atom (to_pred p)
       ∧ well_formed p = true
       ∧ squeeze g = g
       ∧ ∀ a, a ∈ args p → a ∈ constants (language_model ilp).
Proof.
  intros Hst H Hg.
  apply Claims.setup_custom_inv in H
    as (bk & first & others & neg & Hbk & Hpos & Hneg & -> & _); [|done].
  cbn [background positive negative language_model constants] in *.
  apply parse_file_fresh_inv in Hbk as (_ & _ & _ & Hwf1 & _).
  apply parse_file_fresh_inv in Hpos as (_ & _ & _ & Hwf2 & _).
  apply parse_file_fresh_inv in Hneg as (_ & _ & _ & Hwf3 & _).
  rewrite <-!map_app in Hg. apply list_elem_of_fmap in Hg as (p & -> & Hp).
  assert (well_formed p = true) as Hwf.
  { rewrite !elem_of_app in Hp.
    destruct Hp as [Hp|[Hp|Hp]];
      [apply (proj1 (Forall_forall _ _) Hwf1 p Hp)
      |apply (proj1 (Forall_forall _ _) Hwf2 p Hp)
      |apply (proj1 (Forall_forall _ _) Hwf3 p Hp)]. }
  exists p. split_and!; [done|done|by apply squeeze_to_pred|].
  intros a Ha. unfold Constant. rewrite map_id.
  rewrite elem_of_elements, elem_of_list_to_set, !elem_of_app.
  rewrite !Claims.elem_of_get_all_unique_args.
  rewrite !elem_of_app in Hp.
  destruct Hp as [Hp|[Hp|Hp]]; [left|right; left|right; right]; by exists p.
Qed.

Lemma assembled_atoms_over_constants_witness :
  reachable module_init
  ∧ ∃ ilp pt,
      (setup_custom even_fs even_dir module_init).2 = inr (ilp, pt)
      ∧ "succ(0,1)" ∈ background ilp ++ positive ilp ++ negative ilp
      ∧ ∃ p, "succ(0,1)" = str2ground_atom (to_pred p)
             ∧ well_formed p = true
             ∧ squeeze "succ(0,1)" = "succ(0,1)"
             ∧ ∀ a, a ∈ args p → a ∈ constants (language_model ilp).
Proof.
  split; [apply reachable_init|].
  eexists _, _. split; [vm_compute; reflexivity|].
  assert ("succ(0,1)" ∈ ["zero(0)"; "succ(0,1)"] ++ ["even(0)"; "even(2)"] ++ ["even(1)"])
    as Hin by (apply list_elem_of_In; cbn; tauto).
  split; [exact Hin|].
  eapply (assembled_atoms_over_constants module_init even_fs even_dir).
  - apply reachable_init.
  - vm_compute. reflexivity.
  - exact Hin.
Defined.

(** X12: Facts of the shape the grammar accepts, written into the three files of
    a directory, are assembled into the problem of these facts: the ground
    atoms are the facts as [to_pred] writes them, in their order, the target
    is the signature of the first positive example and the extensional
    signatures are those of the background facts. *)
Theorem written_problem_assembled (st : module_state) (fs : filesystem)
    (example_path : Path) (sep : string)
    (b first n : Predicate) (bk others neg : list Predicate) :
  reachable st →
  blank sep = true →
  Forall (λ p, well_formed p = true) (b :: bk) →
  Forall (λ p, well_formed p = true) (first :: others) →
  Forall (λ p, well_formed p = true) (n :: neg) →
  fs !! joinpath example_path "bk.pl" = Some (written sep (b :: bk)) →
  fs !! joinpath example_path "pos.pl" = Some (written sep (first :: others)) →
  fs !! joinpath example_path "neg.pl" = Some (written sep (n :: neg)) →
  ∃ ilp pt,
    (setup_custom fs example_path st).2 = inr (ilp, pt)
    ∧ name ilp = Py.name example_path
    ∧ target (language_model ilp) = str2pred (to_pred_str first)
    ∧ extensional (language_model ilp) = map (λ p, str2pred (to_pred_str p)) (b :: bk)
    ∧ background ilp = map (λ p, str2ground_atom (to_pred p)) (b :: bk)
    ∧ positive ilp = map (λ p, str2ground_atom (to_pred p)) (first :: others)
    ∧ negative ilp = map (λ p, str2ground_atom (to_pred p)) (n :: neg).
Proof.
  intros Hst%reachable_prolog_inv Hsep Hbk Hpos Hneg Fbk Fpos Fneg.
  rewrite setup_custom_outcome by done.
  rewrite (parse_file_fresh_written fs _ sep b bk) by done.
  rewrite (parse_file_fresh_written fs _ sep first others) by done.
  rewrite (parse_file_fresh_written fs _ sep n neg) by done.
  eexists _, _. split; [reflexivity|].
  cbn [name language_model target extensional background positive negative].
  unfold get_pred_str_list. by rewrite map_map.
Qed.

Lemma written_problem_assembled_witness :
  reachable module_init
  ∧ blank nl = true
  ∧ Forall (λ p, well_formed p = true) rows
  ∧ Forall (λ p, well_formed p = true) [mkPredicate "even" ["0"]]
  ∧ Forall (λ p, well_formed p = true) [mkPredicate "even" ["1"]]
  ∧ ∃ ilp pt,
      (setup_custom
         (problem_fs even_dir (written nl rows)
            (written nl [mkPredicate "even" ["0"]])
            (written nl [mkPredicate "even" ["1"]]))
         even_dir module_init).2 = inr (ilp, pt)
      ∧ name ilp = Py.name even_dir
      ∧ target (language_model ilp) = str2pred (to_pred_str (mkPredicate "even" ["0"]))
      ∧ extensional (language_model ilp) = map (λ p, str2pred (to_pred_str p)) rows
      ∧ background ilp = map (λ p, str2ground_atom (to_pred p)) rows
      ∧ positive ilp
        = map (λ p, str2ground_atom (to_pred p)) [mkPredicate "even" ["0"]]
      ∧ negative ilp
        = map (λ p, str2ground_atom (to_pred p)) [mkPredicate "even" ["1"]].
Proof.
  split; [apply reachable_init|]. split; [reflexivity|].
  do 3 (split; [repeat constructor|]).
  apply (written_problem_assembled module_init _ even_dir nl
           (mkPredicate "succ" ["0"; "1"]) (mkPredicate "even" ["0"])
           (mkPredicate "even" ["1"]) [mkPredicate "zero" ["0"]] [] []).
  - apply reachable_init.
  - reflexivity.
  - repeat constructor.
  - repeat constructor.
  - repeat constructor.
  - reflexivity.
  - reflexivity.
  - reflexivity.
Defined.

(** ** The built-in problems *)

Example range_even : range3 0 11 2 = [0; 2; 4; 6; 8; 10].
Proof. reflexivity. Qed.

Example range_odd : range3 1 10 2 = [1; 3; 5; 7; 9].
Proof. reflexivity. Qed.

Example setup_even_atoms :
  background setup_even.2.1
  = ["zero(0)"; "succ(0,1)"; "succ(1,2)"; "succ(2,3)"; "succ(3,4)"; "succ(4,5)";
     "succ(5,6)"; "succ(6,7)"; "succ(7,8)"; "succ(8,9)"; "succ(9,10)"]
  ∧ positive setup_even.2.1
    = ["even(0)"; "even(2)"; "even(4)"; "even(6)"; "even(8)"; "even(10)"]
  ∧ negative setup_even.2.1 = ["even(1)"; "even(3)"; "even(5)"; "even(7)"; "even(9)"].
Proof. vm_compute. done. Qed.

(** X13: The built-in even problem is the one [setup_custom] assembles from its
    own facts: with the background axioms and the examples of [setup_even]
    written one on a line into the files of a directory named [even],
    [setup_custom] returns the same program template, name, target and ground
    atoms and the same constants up to their order; the extensional
    signatures are the same two, but [zero/1] once and [succ/2] once for each
    of its ten facts. *)
Theorem even_problem_from_files (st : module_state) (fs : filesystem)
    (example_path : Path) :
  reachable st →
  Py.name example_path = "even" →
  fs !! joinpath example_path "bk.pl" = Some (lines (background setup_even.2.1)) →
  fs !! joinpath example_path "pos.pl" = Some (lines (positive setup_even.2.1)) →
  fs !! joinpath example_path "neg.pl" = Some (lines (negative setup_even.2.1)) →
  ∃ ilp pt,
    (setup_custom fs example_path st).2 = inr (ilp, pt)
    ∧ pt = setup_even.2.2
    ∧ name ilp = name setup_even.2.1
    ∧ target (language_model ilp) = target (language_model setup_even.2.1)
    ∧ background ilp = background setup_even.2.1
    ∧ positive ilp = positive setup_even.2.1
    ∧ negative ilp = negative setup_even.2.1
    ∧ NoDup (constants (language_model ilp))
    ∧ (list_to_set (constants (language_model ilp)) : gset string)
      = list_to_set (constants (language_model setup_even.2.1))
    ∧ extensional (language_model setup_even.2.1) = ["zero/1"; "succ/2"]
    ∧ extensional (language_model ilp) = "zero/1" :: replicate 10 "succ/2".
Proof.
  intros Hst%reachable_prolog_inv Hname Hbk Hpos Hneg.
  rewrite setup_custom_outcome by done.
  rewrite !parse_file_fresh_snd, Hbk, Hpos, Hneg, Hname.
  eexists _, _. split; [vm_compute; reflexivity|].
  split_and!; try (vm_compute; reflexivity).
  apply (bool_decide_unpack _). vm_compute. exact I.
Qed.

Lemma even_problem_from_files_witness :
  reachable module_init
  ∧ Py.name ["examples"; "even"] = "even"
  ∧ ∃ ilp pt,
      (setup_custom
         (problem_fs ["examples"; "even"]
            (lines (background setup_even.2.1))
            (lines (positive setup_even.2.1))
            (lines (negative setup_even.2.1)))
         ["examples"; "even"] module_init).2 = inr (ilp, pt)
      ∧ pt = setup_even.2.2
      ∧ name ilp = name setup_even.2.1
      ∧ target (language_model ilp) = target (language_model setup_even.2.1)
      ∧ background ilp = background setup_even.2.1
      ∧ positive ilp = positive setup_even.2.1
      ∧ negative ilp = negative setup_even.2.1
      ∧ NoDup (constants (language_model ilp))
      ∧ (list_to_set (constants (language_model ilp)) : gset string)
        = list_to_set (constants (language_model setup_even.2.1))
      ∧ extensional (language_model setup_even.2.1) = ["zero/1"; "succ/2"]
      ∧ extensional (language_model ilp) = "zero/1" :: replicate 10 "succ/2".
Proof.
  split; [apply reachable_init|]. split; [reflexivity|].
  apply (even_problem_from_files module_init _ ["examples"; "even"]).
  - apply reachable_init.
  - reflexivity.
  - reflexivity.
  - reflexivity.
  - reflexivity.
Defined.

Lemma foldl_negative_examples {T : Type} (positive_examples : list GroundAtom)
    (generated : list (GroundAtom * T)) (acc : list GroundAtom) :
  foldl (λ negative_examples '(ground_atom, _),
           if decide (ground_atom ∈ positive_examples) then negative_examples
           else negative_examples ++ [ground_atom])
        acc generated
  = acc ++ filter (λ g, g ∉ positive_examples) generated.*1.
Proof.
  revert acc. induction generated as [|[g t] generated IH]; intros acc.
  - cbn. by rewrite List.app_nil_r.
  - cbn [foldl fmap list_fmap fst]. rewrite IH.
    destruct (decide (g ∈ positive_examples)) as [Hg|Hg].
    + by rewrite filter_cons_False by (intros H; by apply H).
    + rewrite filter_cons_True by done. by rewrite <-List.app_assoc.
Qed.

(** X14: Whatever atoms the generator yields for the target, the negative examples
    of the predecessor problem are those of them that are no positive
    example, in the order they are yielded: no atom is both a positive and a
    negative example, and every atom yielded is one or the other. *)
Theorem predecessor_negative_examples {T : Type}
    (ground_atom_generator :
       LanguageModel → ProgramTemplate → Signature → list (GroundAtom * T)) :
  let ilp := (setup_predecessor ground_atom_generator).2.1 in
  let pt := (setup_predecessor ground_atom_generator).2.2 in
  let generated :=
    (ground_atom_generator (language_model ilp) pt (target (language_model ilp))).*1 in
  negative ilp = filter (λ g, g ∉ positive ilp) generated
  ∧ (∀ g, g ∈ negative ilp → g ∉ positive ilp)
  ∧ (∀ g, g ∈ generated → g ∈ positive ilp ∨ g ∈ negative ilp)
  ∧ positive ilp
    = map (λ i, "predecessor(" +:+ pretty (i + 1) +:+ "," +:+ pretty i +:+ ")")
          (seq 0 9).
Proof.
  intros ilp pt generated.
  assert (negative ilp = filter (λ g, g ∉ positive ilp) generated) as Hneg.
  { unfold ilp, generated, pt, setup_predecessor.
    cbn [snd fst negative positive language_model target].
    by rewrite foldl_negative_examples. }
  split_and!.
  - exact Hneg.
  - intros g. rewrite Hneg. by intros [? _]%list_elem_of_filter.
  - intros g Hg. destruct (decide (g ∈ positive ilp)) as [|Hn]; [by left|right].
    rewrite Hneg. by apply list_elem_of_filter.
  - reflexivity.
Qed.

(** ** The signatures of an assembled problem *)

(** X15: The target and the extensional signatures of an assembled problem are
    each an alphabetic name, a slash and an arity of at least one in decimal,
    and read back as that name and that arity. *)
Theorem assembled_signatures (st : module_state) (fs : filesystem)
    (example_path : Path) (ilp : ILP) (pt : ProgramTemplate) (s : Signature) :
  reachable st →
  (setup_custom fs example_path st).2 = inr (ilp, pt) →
  s = target (language_model ilp) ∨ s ∈ extensional (language_model ilp) →
  ∃ n k, s = n +:+ "/" +:+ pretty k
         ∧ read_signature s = Some (n, k)
         ∧ n ≠ "" ∧ all_in alphas n = true ∧ 1 ≤ k.
Proof.
  intros Hst H Hs.
  apply Claims.setup_custom_inv in H
    as (bk & first & others & neg & Hbk & Hpos & _ & -> & _); [|done].
  cbn [language_model target extensional] in Hs.
  apply parse_file_fresh_inv in Hbk as (_ & _ & _ & Hwf1 & _).
  apply parse_file_fresh_inv in Hpos as (_ & _ & _ & Hwf2 & _).
  assert (∃ p, well_formed p = true ∧ s = to_pred_str p) as (p & Hp & ->).
  { destruct Hs as [->|Hs].
    - exists first. split; [|done]. by apply Forall_cons in Hwf2 as [? _].
    - unfold get_pred_str_list, str2pred in Hs. rewrite map_map in Hs.
      apply list_elem_of_fmap in Hs as (p & -> & Hp). exists p. split; [|done].
      by apply (proj1 (Forall_forall _ _) Hwf1). }
  pose proof (well_formed_name p Hp) as [Hne Hn]%word_over_spec.
  pose proof (Claims.well_formed_args p Hp) as [Hargs _].
  exists (id p), (length (args p)). split_and!; [done| |done|done|].
  - by apply Claims.read_signature_to_pred_str.
  - destruct (args p); [done|]. cbn. lia.
Qed.

Lemma assembled_signatures_witness :
  reachable module_init
  ∧ ∃ ilp pt,
      (setup_custom even_fs even_dir module_init).2 = inr (ilp, pt)
      ∧ ("succ/2" = target (language_model ilp)
         ∨ "succ/2" ∈ extensional (language_model ilp))
      ∧ ∃ n k, "succ/2" = n +:+ "/" +:+ pretty k
               ∧ read_signature "succ/2" = Some (n, k)
               ∧ n ≠ "" ∧ all_in alphas n = true ∧ 1 ≤ k.
Proof.
  split; [apply reachable_init|].
  eexists _, _. split; [vm_compute; reflexivity|].
  assert ("succ/2" = "even/1" ∨ "succ/2" ∈ ["zero/1"; "succ/2"]) as Hin.
  { right. apply list_elem_of_In. cbn. tauto. }
  split; [exact Hin|].
  eapply (assembled_signatures module_init even_fs even_dir).
  - apply reachable_init.
  - vm_compute. reflexivity.
  - exact Hin.
Defined.

End Properties.
